(** * just-a-canvas: the stroke-history state machine of [DrawingCanvas]

    A shallow embedding of the React component [DrawingCanvas]
    (components/Canvas): its five state hooks, the 2D drawing context it
    keeps in [ctxRef], the event handlers [startDrawing], [draw],
    [stopDrawing], [saveStateToHistory], [undoLastStroke],
    [redoLastStroke] and [handleKeyDown], and the [img.onload] callbacks
    of the images that undo and redo decode.

    Modelling decisions.
    - The canvas bitmap is the finite set of its inked pixels ([gset]):
      the only stroke style is opaque black, so a pixel is either
      transparent or inked.  The rasterizer of the browser (which pixels a
      stroked path of a given width covers) is a parameter, [footprint];
      the sample sessions use [round_stroke], which inks the pixels whose
      centre lies within half the line width of the path.
    - [canvas.toDataURL()] is a lossless encoding of the bitmap; a data URL
      is modelled by the bitmap it encodes, and decoding it gives that
      bitmap back.  An array slot read out of range is [Undefined], as in
      JavaScript.
    - The handlers are closures over the values of one render.  The mouse
      handlers are re-bound at every render; the key handler is bound by
      the effect, which re-runs only when [history] or [redoHistory] is a
      new array.  Each handler therefore takes the render [c] it closes
      over and the live state [s] that its setter calls update; setter
      calls with an updater function apply to the live value, in order.
    - Image decoding is asynchronous: [img.src = v] queues the image, and
      a later [ImageLoad n] event fires the [onload] of the [n]-th queued
      image, so completions may happen in any order.
    - React renders synchronously at the end of a discrete event
      (pointer-down, pointer-up, key press) whose handler changed a hook,
      and that render takes in every update queued so far.  Pointer-move
      and pointer-leave are continuous events: the updates of a
      pointer-leave are rendered later, at a [Render] event, so a key
      press that arrives first runs the listener bound at the older
      render.  The mouse handlers are taken on the live state.
    - [clearRect] ignores the compositing operator of the context;
      [stroke] and [drawImage] are subject to it. *)

From Stdlib Require Import ZArith Lia.
From stdpp Require Import base gmap list strings.

Open Scope Z_scope.

(** ** Data model *)

Abbreviation Raster := (gset (Z * Z)).

(** A value stored in [history] or [redoHistory]: a data URL, or
    [undefined] when it was read from a slot that does not exist. *)
Inductive Snapshot :=
  | Undefined
  | DataURL (image : Raster).

#[global] Instance Snapshot_eq_dec : EqDecision Snapshot.
Proof. solve_decision. Defined.

(** [ctx.globalCompositeOperation]; the component only ever selects these
    two operators. *)
Inductive CompositeOp :=
  | SourceOver        (* "source-over": paint the source over the bitmap *)
  | DestinationOut.   (* "destination-out": keep the bitmap only where the
                         source is transparent *)

Record Subpath := { points : list (Z * Z); closed : bool }.

(** The current path of the context, newest subpath first. *)
Abbreviation Path := (list Subpath).

Record Context2D := {
  globalCompositeOperation : CompositeOp;
  lineWidth : Z;
  path : Path
}.

(** The values of the five [useState] hooks. *)
Record Hooks := {
  isDrawing : bool;
  isEraser : bool;
  history : list Snapshot;
  redoHistory : list Snapshot;
  currentHistoryIndex : Z
}.

#[global] Instance Hooks_eq_dec : EqDecision Hooks.
Proof. solve_decision. Defined.

Record State := {
  hooks : Hooks;            (* the state the next render will see *)
  canvas : Raster;          (* the bitmap of [canvasRef.current] *)
  ctx : Context2D;          (* [ctxRef.current] *)
  keydown : Hooks;          (* the render the document key listener closes over *)
  depsChanged : bool;       (* [history] or [redoHistory] was replaced since
                               the effect last ran: a re-binding of the key
                               listener is due at the next render *)
  loading : list Raster     (* images with [src] set whose [onload] has not fired *)
}.

Inductive Event :=
  | MouseDown (button x y : Z)
  | MouseMove (x y : Z)
  | MouseUp
  | MouseLeave
  | ContextMenu
  | KeyDown (ctrlKey metaKey : bool) (key : string)
  | ImageLoad (n : nat)
  | Render.

(** ** JavaScript arrays *)

(** [a[i]] *)
Definition js_get (a : list Snapshot) (i : Z) : Snapshot :=
  if i <? 0 then Undefined else default Undefined (a !! Z.to_nat i).

(** [a.slice(0, e)]: a negative [e] counts from the end. *)
Definition js_slice0 {A} (a : list A) (e : Z) : list A :=
  let len := Z.of_nat (length a) in
  let k := if e <? 0 then Z.max (len + e) 0 else Z.min e len in
  take (Z.to_nat k) a.

(** ** Setters *)

Definition setIsDrawing (b : bool) (s : State) : State :=
  let h := hooks s in
  {| hooks := {| isDrawing := b; isEraser := isEraser h; history := history h;
                 redoHistory := redoHistory h;
                 currentHistoryIndex := currentHistoryIndex h |};
     canvas := canvas s; ctx := ctx s; keydown := keydown s;
     depsChanged := depsChanged s; loading := loading s |}.

Definition setHistory (f : list Snapshot -> list Snapshot) (s : State) : State :=
  let h := hooks s in
  {| hooks := {| isDrawing := isDrawing h; isEraser := isEraser h;
                 history := f (history h); redoHistory := redoHistory h;
                 currentHistoryIndex := currentHistoryIndex h |};
     canvas := canvas s; ctx := ctx s; keydown := keydown s;
     depsChanged := true; loading := loading s |}.

Definition setRedoHistory (f : list Snapshot -> list Snapshot) (s : State) : State :=
  let h := hooks s in
  {| hooks := {| isDrawing := isDrawing h; isEraser := isEraser h;
                 history := history h; redoHistory := f (redoHistory h);
                 currentHistoryIndex := currentHistoryIndex h |};
     canvas := canvas s; ctx := ctx s; keydown := keydown s;
     depsChanged := true; loading := loading s |}.

Definition setCurrentHistoryIndex (f : Z -> Z) (s : State) : State :=
  let h := hooks s in
  {| hooks := {| isDrawing := isDrawing h; isEraser := isEraser h;
                 history := history h; redoHistory := redoHistory h;
                 currentHistoryIndex := f (currentHistoryIndex h) |};
     canvas := canvas s; ctx := ctx s; keydown := keydown s;
     depsChanged := depsChanged s; loading := loading s |}.

Definition set_ctx (c : Context2D) (s : State) : State :=
  {| hooks := hooks s; canvas := canvas s; ctx := c; keydown := keydown s;
     depsChanged := depsChanged s; loading := loading s |}.

Definition set_canvas (px : Raster) (s : State) : State :=
  {| hooks := hooks s; canvas := px; ctx := ctx s; keydown := keydown s;
     depsChanged := depsChanged s; loading := loading s |}.

Definition set_loading (l : list Raster) (s : State) : State :=
  {| hooks := hooks s; canvas := canvas s; ctx := ctx s; keydown := keydown s;
     depsChanged := depsChanged s; loading := l |}.

(** ** The 2D context *)

Definition beginPath (c : Context2D) : Context2D :=
  {| globalCompositeOperation := globalCompositeOperation c;
     lineWidth := lineWidth c; path := [] |}.

Definition moveTo (x y : Z) (c : Context2D) : Context2D :=
  {| globalCompositeOperation := globalCompositeOperation c;
     lineWidth := lineWidth c;
     path := {| points := [(x, y)]; closed := false |} :: path c |}.

(** [lineTo] on an empty path only starts a subpath at the point. *)
Definition lineTo (x y : Z) (c : Context2D) : Context2D :=
  match path c with
  | [] => moveTo x y c
  | sp :: rest =>
      {| globalCompositeOperation := globalCompositeOperation c;
         lineWidth := lineWidth c;
         path := {| points := points sp ++ [(x, y)]; closed := closed sp |} :: rest |}
  end.

(** [closePath] closes the newest subpath and starts another one at its
    first point; on an empty path it does nothing. *)
Definition closePath (c : Context2D) : Context2D :=
  match path c with
  | [] => c
  | sp :: rest =>
      {| globalCompositeOperation := globalCompositeOperation c;
         lineWidth := lineWidth c;
         path := {| points := take 1 (points sp); closed := false |}
                 :: {| points := points sp; closed := true |} :: rest |}
  end.

Definition set_mode (op : CompositeOp) (w : Z) (c : Context2D) : Context2D :=
  {| globalCompositeOperation := op; lineWidth := w; path := path c |}.

(** Painting a source (a stroke outline or an image) onto the bitmap under
    a compositing operator. *)
Definition composite (op : CompositeOp) (src dst : Raster) : Raster :=
  match op with
  | SourceOver => dst ∪ src
  | DestinationOut => dst ∖ src
  end.

(** [ctx.clearRect(0, 0, canvas.width, canvas.height)]: the whole bitmap
    becomes transparent, whatever the compositing operator. *)
Definition clearRect (px : Raster) : Raster := ∅.

(** [ctx.drawImage(img, 0, 0)] is subject to the compositing operator.  *)
Definition drawImage (c : Context2D) (img px : Raster) : Raster :=
  composite (globalCompositeOperation c) img px.

Arguments composite : simpl never.
Arguments drawImage : simpl never.

Definition toDataURL (px : Raster) : Snapshot := DataURL px.

(** [img.src = v]: a data URL starts decoding; [undefined] is not an image
    and its [onload] never fires. *)
Definition set_src (v : Snapshot) (s : State) : State :=
  match v with
  | DataURL img => set_loading (loading s ++ [img]) s
  | Undefined => s
  end.

Section Component.

(** The rasterizer: the pixels covered by stroking a path with a line
    width (round caps, black). *)
Variable footprint : Z -> Path -> Raster.

(** [ctx.stroke()] *)
Definition stroke (c : Context2D) (px : Raster) : Raster :=
  composite (globalCompositeOperation c) (footprint (lineWidth c) (path c)) px.

(** ** Handlers *)

Definition saveStateToHistory (c : Hooks) (s : State) : State :=
  let imageData := toDataURL (canvas s) in
  let s1 :=
    if currentHistoryIndex c <? Z.of_nat (length (history c)) - 1
    then setHistory (fun prev => js_slice0 prev (currentHistoryIndex c + 1)) s
    else s in
  let s2 := setHistory (fun prev => prev ++ [imageData]) s1 in
  let s3 := setCurrentHistoryIndex (fun prev => prev + 1) s2 in
  setRedoHistory (fun _ => []) s3.

Definition startDrawing (c : Hooks) (button x y : Z) (s : State) : State :=
  if (button =? 0) || (button =? 2) then
    let s1 := set_ctx (moveTo x y (beginPath (ctx s))) s in
    let s2 := setIsDrawing true s1 in
    if (button =? 2) || isEraser c
    then set_ctx (set_mode DestinationOut 20 (ctx s2)) s2
    else set_ctx (set_mode SourceOver 2 (ctx s2)) s2
  else s.

Definition draw (c : Hooks) (x y : Z) (s : State) : State :=
  if negb (isDrawing c) then s
  else
    let s1 := set_ctx (lineTo x y (ctx s)) s in
    set_canvas (stroke (ctx s1) (canvas s1)) s1.

Definition stopDrawing (c : Hooks) (s : State) : State :=
  let s1 := set_ctx (closePath (ctx s)) s in
  let s2 := setIsDrawing false s1 in
  saveStateToHistory c s2.

Definition undoLastStroke (c : Hooks) (s : State) : State :=
  if 0 <? currentHistoryIndex c then
    let s1 :=
      setRedoHistory
        (fun prev => prev ++ [js_get (history c) (currentHistoryIndex c)]) s in
    let s2 := setCurrentHistoryIndex (fun prev => prev - 1) s1 in
    let prevState := js_get (history c) (currentHistoryIndex c - 1) in
    set_src prevState s2
  else s.

Definition redoLastStroke (c : Hooks) (s : State) : State :=
  if 0 <? Z.of_nat (length (redoHistory c)) then
    let lastUndoneState :=
      js_get (redoHistory c) (Z.of_nat (length (redoHistory c)) - 1) in
    let s1 := set_src lastUndoneState s in
    let s2 := setHistory (fun prev => prev ++ [lastUndoneState]) s1 in
    let s3 := setCurrentHistoryIndex (fun prev => prev + 1) s2 in
    setRedoHistory (fun prev => js_slice0 prev (Z.of_nat (length prev) - 1)) s3
  else s.

Definition handleKeyDown (c : Hooks) (ctrlKey metaKey : bool) (key : string)
    (s : State) : State :=
  let s1 :=
    if (ctrlKey || metaKey) && String.eqb key "z" then undoLastStroke c s else s in
  if (ctrlKey || metaKey) && String.eqb key "y" then redoLastStroke c s1 else s1.

(** [img.onload] of the [n]-th image still decoding. *)
Definition onload (n : nat) (s : State) : State :=
  match loading s !! n with
  | Some img =>
      let s1 := set_canvas (clearRect (canvas s)) s in
      let s2 := set_canvas (drawImage (ctx s1) img (canvas s1)) s1 in
      set_loading (delete n (loading s)) s2
  | None => s
  end.

(** A render: the effect re-binds the key listener to the new render when
    one of its dependencies was replaced. *)
Definition rerender (s : State) : State :=
  if depsChanged s then
    {| hooks := hooks s; canvas := canvas s; ctx := ctx s; keydown := hooks s;
       depsChanged := false; loading := loading s |}
  else s.

(** The end of a discrete event whose handler took [s] to [s']: React
    renders at once when a hook changed, and not at all otherwise. *)
Definition sync (s s' : State) : State :=
  if decide (hooks s' = hooks s) then s' else rerender s'.

(** Pointer-down, pointer-up and key presses are discrete events.
    Pointer-move and pointer-leave are continuous: nothing is rendered at
    their end, and the updates of [stopDrawing] on pointer-leave wait for
    [Render].  [onload] and the context-menu handler set no state. *)
Definition step (s : State) (e : Event) : State :=
  match e with
  | MouseDown button x y => sync s (startDrawing (hooks s) button x y s)
  | MouseMove x y => draw (hooks s) x y s
  | MouseUp => sync s (stopDrawing (hooks s) s)
  | MouseLeave => stopDrawing (hooks s) s
  | ContextMenu => s
  | KeyDown ctrlKey metaKey key =>
      sync s (handleKeyDown (keydown s) ctrlKey metaKey key s)
  | ImageLoad n => onload n s
  | Render => rerender s
  end.

Definition run (s : State) (es : list Event) : State := foldl step s es.

End Component.

Arguments step : simpl never.

(** The component as mounted. *)
Definition mount_hooks : Hooks :=
  {| isDrawing := false; isEraser := false; history := []; redoHistory := [];
     currentHistoryIndex := -1 |}.

Definition mount : State :=
  {| hooks := mount_hooks; canvas := ∅;
     ctx := {| globalCompositeOperation := SourceOver; lineWidth := 1; path := [] |};
     keydown := mount_hooks; depsChanged := false; loading := [] |}.

(** ** Events of interest *)

(** Ctrl+Z and Ctrl+Y, the key presses bound to undo and redo. *)
Definition undo : Event := KeyDown true false "z".
Definition redo : Event := KeyDown true false "y".

Definition key_event (e : Event) : Prop :=
  match e with KeyDown _ _ _ => True | _ => False end.

Definition MouseMoves (ms : list (Z * Z)) : list Event :=
  map (fun m => MouseMove m.1 m.2) ms.

(** One whole stroke: press a button at a point, drag through [ms],
    release. *)
Definition strokeEvents (button : Z) (p : Z * Z) (ms : list (Z * Z)) : list Event :=
  MouseDown button p.1 p.2 :: MouseMoves ms ++ [MouseUp].

(** The entry of [history] under the cursor. *)
Definition current (h : Hooks) : Snapshot :=
  js_get (history h) (currentHistoryIndex h).

(** The bitmap shows exactly the image a snapshot encodes. *)
Definition shows (s : State) (v : Snapshot) : Prop := v = toDataURL (canvas s).



(** The [cursor] style of the canvas element. *)
Definition cursor (h : Hooks) : string :=
  if isEraser h then "cell" else "crosshair".

(** A button press over the canvas. *)
Definition is_press (e : Event) : Prop :=
  match e with MouseDown _ _ _ => True | _ => False end.

(** What [stopDrawing] amounts to when the cursor is inside [history]. *)
Definition commit (s : State) : State :=
  setRedoHistory (fun _ => [])
    (setCurrentHistoryIndex (fun i => i + 1)
       (setHistory (fun h => take (Z.to_nat (currentHistoryIndex (hooks s) + 1)) h
                             ++ [toDataURL (canvas s)])
          (setIsDrawing false (set_ctx (closePath (ctx s)) s)))).

(** ** Invariants *)

(** The cursor stays inside [history], and [redoHistory] mirrors the
    entries after the cursor: its top is the entry just after the cursor. *)
Record hist_ok (h : Hooks) : Prop := {
  idx_lower : -1 <= currentHistoryIndex h;
  idx_upper :
    currentHistoryIndex h + Z.of_nat (length (redoHistory h))
    <= Z.of_nat (length (history h)) - 1;
  redo_mirror : forall j : nat,
    (j < length (redoHistory h))%nat ->
    redoHistory h !! j =
    history h !! Z.to_nat (currentHistoryIndex h
                           + Z.of_nat (length (redoHistory h)) - Z.of_nat j);
  history_defined : Forall (fun v => v <> Undefined) (history h)
}.

(** What the undo and redo closures read from their render is current. *)
Definition fresh (c h : Hooks) : Prop :=
  history c = history h /\ redoHistory c = redoHistory h /\
  currentHistoryIndex c = currentHistoryIndex h.

Record wf (s : State) : Prop := {
  wf_hist : hist_ok (hooks s);
  wf_fresh : fresh (keydown s) (hooks s);
  wf_deps : depsChanged s = false
}.

(** What holds of the hooks in every state, whatever the listener did:
    the cursor is inside [history] and no entry is [undefined]. *)
Record sound (h : Hooks) : Prop := {
  sound_lower : -1 <= currentHistoryIndex h;
  sound_upper : currentHistoryIndex h <= Z.of_nat (length (history h)) - 1;
  sound_history : Forall (fun v => v <> Undefined) (history h);
  sound_redoHistory : Forall (fun v => v <> Undefined) (redoHistory h)
}.

(** The invariant of all reachable states: the live hooks and the render
    of the key listener are sound, the listener's cursor is not ahead of
    the live one, and the listener is current unless a re-binding is due. *)
Record inv (s : State) : Prop := {
  inv_live : sound (hooks s);
  inv_listener : sound (keydown s);
  inv_cursor : currentHistoryIndex (keydown s) <= currentHistoryIndex (hooks s);
  inv_fresh : depsChanged s = false -> fresh (keydown s) (hooks s)
}.

(** Between a pointer-leave and the next render: the live hooks keep the
    history invariant, whatever the listener closes over. *)
Record live_ok (s : State) : Prop := {
  live_hist : hist_ok (hooks s);
  live_fresh : depsChanged s = false -> fresh (keydown s) (hooks s)
}.

(** A sample rasterizer with round caps and joins and no anti-aliasing: a
    stroke of line width [w] inks the canvas pixels whose centre lies
    within [w / 2] of a segment of the path.  Coordinates are doubled so
    that pixel centres and the radius are integers. *)
Definition near (w : Z) (a b c : Z * Z) : bool :=
  let ax := 2 * a.1 in let ay := 2 * a.2 in
  let bx := 2 * b.1 in let by' := 2 * b.2 in
  let cx := 2 * c.1 + 1 in let cy := 2 * c.2 + 1 in
  let dx := bx - ax in let dy := by' - ay in
  let px := cx - ax in let py := cy - ay in
  let len2 := dx * dx + dy * dy in
  let dot := px * dx + py * dy in
  if dot <=? 0 then px * px + py * py <=? w * w
  else if len2 <=? dot
       then (cx - bx) * (cx - bx) + (cy - by') * (cy - by') <=? w * w
       else (px * dy - py * dx) * (px * dy - py * dx) <=? w * w * len2.

(** The pixels of the 1280 by 720 canvas around a segment. *)
Definition box (w : Z) (a b : Z * Z) : list (Z * Z) :=
  let r := w / 2 + 1 in
  let x0 := Z.max 0 (Z.min a.1 b.1 - r) in
  let x1 := Z.min 1279 (Z.max a.1 b.1 + r) in
  let y0 := Z.max 0 (Z.min a.2 b.2 - r) in
  let y1 := Z.min 719 (Z.max a.2 b.2 + r) in
  flat_map (fun x => map (fun y => (x, y)) (seqZ y0 (y1 - y0 + 1)))
           (seqZ x0 (x1 - x0 + 1)).

Fixpoint segments (ps : list (Z * Z)) : list ((Z * Z) * (Z * Z)) :=
  match ps with
  | a :: ((b :: _) as rest) => (a, b) :: segments rest
  | _ => []
  end.

(** The segments of a subpath; a closed one returns to its first point. *)
Definition subpath_segments (sp : Subpath) : list ((Z * Z) * (Z * Z)) :=
  segments (points sp) ++
  (if closed sp then
     match points sp, last (points sp) with
     | a :: _, Some z => [(z, a)]
     | _, _ => []
     end
   else []).

Definition round_stroke (w : Z) (p : Path) : Raster :=
  list_to_set
    (flat_map (fun ab => List.filter (near w ab.1 ab.2) (box w ab.1 ab.2))
              (flat_map subpath_segments p)).

(** The context a pen stroke starts with, and the bitmap it leaves. *)
Definition pen_start (p : Z * Z) : Context2D :=
  {| globalCompositeOperation := SourceOver; lineWidth := 2;
     path := [{| points := [p]; closed := false |}] |}.

Section Reachability.

Variable footprint : Z -> Path -> Raster.

Inductive reachable : State -> Prop :=
  | reachable_mount : reachable mount
  | reachable_step s e : reachable s -> reachable (step footprint s e).

(** The states reached with the renders keeping up: after a pointer-leave
    no key press is handled before React has rendered. *)
Inductive rendered : State -> Prop :=
  | rendered_mount : rendered mount
  | rendered_step s e :
      rendered s -> e <> MouseLeave -> rendered (step footprint s e)
  | rendered_leave s es :
      rendered s -> Forall (fun e => ~ key_event e) es ->
      rendered (step footprint (run footprint (step footprint s MouseLeave) es)
                  Render).

(** Dragging through [ms]: every move extends the path and strokes it. *)
Definition drag (ms : list (Z * Z)) (c : Context2D) (px : Raster)
    : Context2D * Raster :=
  foldl (fun cp m => let c1 := lineTo m.1 m.2 cp.1 in
                     (c1, stroke footprint c1 cp.2)) (c, px) ms.

Definition inked (p : Z * Z) (ms : list (Z * Z)) (px : Raster) : Raster :=
  (drag ms (pen_start p) px).2.

End Reachability.

(** ** Sample sessions

    Three pen strokes and two eraser strokes, rasterized by
    [round_stroke], and some states they lead to.  The eraser stroke
    [eraseB] passes over stroke A; [eraseFar] is far from every pen
    stroke. *)

Definition strokeA : list Event := strokeEvents 0 (1, 1) [(2, 2)].
Definition strokeB : list Event := strokeEvents 0 (3, 3) [(4, 4)].
Definition strokeC : list Event := strokeEvents 0 (5, 5) [(6, 6)].
Definition eraseB : list Event := strokeEvents 2 (2, 2) [(3, 3)].
Definition eraseFar : list Event := strokeEvents 2 (300, 300) [(310, 300)].

(** The bitmaps after A, after A and B, and after A, B and C. *)
Definition inkA : Raster :=
  {[ (0, 0); (0, 1); (1, 0); (1, 1); (1, 2); (2, 1); (2, 2) ]}.
Definition inkAB : Raster :=
  inkA ∪ {[ (2, 3); (3, 2); (3, 3); (3, 4); (4, 3); (4, 4) ]}.
Definition inkABC : Raster :=
  inkAB ∪ {[ (4, 5); (5, 4); (5, 5); (5, 6); (6, 5); (6, 6) ]}.

(** The bitmap after A and C, with B undone in between. *)
Definition inkAC : Raster :=
  inkA ∪ {[ (4, 4); (4, 5); (5, 4); (5, 5); (5, 6); (6, 5); (6, 6) ]}.

Definition after_AB : State := run round_stroke mount (strokeA ++ strokeB).
Definition after_AB_undo : State := run round_stroke after_AB [undo; ImageLoad 0].
Definition after_ABC : State := run round_stroke after_AB strokeC.

(** The mounted component with the eraser toggle switched on. *)
Definition mount_eraser : Hooks :=
  {| isDrawing := false; isEraser := true; history := []; redoHistory := [];
     currentHistoryIndex := -1 |}.

(** ** Array lemmas *)

Lemma js_get_lookup (a : list Snapshot) (i : Z) v :
  0 <= i -> a !! Z.to_nat i = Some v -> js_get a i = v.
Proof.
  intros Hi Hl. unfold js_get.
  destruct (Z.ltb_spec i 0) as [?|_]; [lia|]. by rewrite Hl.
Qed.

Lemma js_get_defined (a : list Snapshot) (i : Z) :
  Forall (fun v => v <> Undefined) a ->
  0 <= i < Z.of_nat (length a) ->
  exists img, a !! Z.to_nat i = Some (DataURL img) /\ js_get a i = DataURL img.
Proof.
  intros Ha Hi.
  destruct (lookup_lt_is_Some_2 a (Z.to_nat i)) as [v Hv]; [lia|].
  assert (v <> Undefined) as Hne.
  { eapply (proj1 (Forall_lookup _ _) Ha); eauto. }
  destruct v as [|img]; [done|].
  exists img. split; [done|]. apply js_get_lookup; [lia|done].
Qed.

Lemma js_slice0_take {A} (a : list A) (e : Z) :
  0 <= e -> js_slice0 a e = take (Z.to_nat e) a.
Proof.
  intros He. unfold js_slice0.
  destruct (Z.ltb_spec e 0) as [?|_]; [lia|].
  destruct (Z.le_gt_cases e (Z.of_nat (length a))).
  - by rewrite Z.min_l.
  - rewrite Z.min_r by lia. rewrite Nat2Z.id.
    rewrite !take_ge; [done|lia..].
Qed.

Lemma js_slice0_pop {A} (a : list A) :
  js_slice0 a (Z.of_nat (length a) - 1) = take (length a - 1) a.
Proof.
  destruct a as [|x a]; [done|].
  rewrite js_slice0_take by (simpl; lia).
  f_equal. simpl. lia.
Qed.

(** ** The handlers, one by one *)

Section Handlers.

Variable footprint : Z -> Path -> Raster.

Lemma undoLastStroke_noop c s :
  currentHistoryIndex c <= 0 -> undoLastStroke c s = s.
Proof.
  intros Hi. unfold undoLastStroke.
  destruct (Z.ltb_spec 0 (currentHistoryIndex c)); [lia|done].
Qed.

Lemma redoLastStroke_noop c s :
  redoHistory c = [] -> redoLastStroke c s = s.
Proof. intros Hr. unfold redoLastStroke. by rewrite Hr. Qed.

(** An effective undo: the entry under the cursor is pushed on
    [redoHistory], the cursor moves back, and the entry before it starts
    decoding. *)
Lemma undoLastStroke_effect c s :
  fresh c (hooks s) -> hist_ok (hooks s) ->
  0 < currentHistoryIndex (hooks s) ->
  exists img,
    history (hooks s) !! Z.to_nat (currentHistoryIndex (hooks s) - 1)
      = Some (DataURL img) /\
    undoLastStroke c s =
      set_loading (loading s ++ [img])
        (setCurrentHistoryIndex (fun i => i - 1)
           (setRedoHistory (fun r => r ++ [current (hooks s)]) s)).
Proof.
  intros (Fh & Fr & Fi) [Hlo Hup _ Hdef] Hpos.
  destruct (js_get_defined (history (hooks s))
              (currentHistoryIndex (hooks s) - 1) Hdef) as (img & Hl & Hg); [lia|].
  exists img. split; [done|].
  unfold undoLastStroke, current. rewrite Fh, Fi.
  destruct (Z.ltb_spec 0 (currentHistoryIndex (hooks s))); [|lia].
  by rewrite Hg.
Qed.

(** An effective redo: the top of [redoHistory] is the entry after the
    cursor; it starts decoding, is appended to [history], and is popped. *)
Lemma redoLastStroke_effect c s :
  fresh c (hooks s) -> hist_ok (hooks s) ->
  redoHistory (hooks s) <> [] ->
  exists img,
    history (hooks s) !! Z.to_nat (currentHistoryIndex (hooks s) + 1)
      = Some (DataURL img) /\
    redoLastStroke c s =
      setRedoHistory (fun r => take (length r - 1) r)
        (setCurrentHistoryIndex (fun i => i + 1)
           (setHistory (fun h => h ++ [DataURL img])
              (set_loading (loading s ++ [img]) s))).
Proof.
  intros (Fh & Fr & Fi) [Hlo Hup Hmir Hdef] Hne.
  set (m := length (redoHistory (hooks s))) in *.
  assert (0 < m)%nat as Hm.
  { subst m. destruct (redoHistory (hooks s)); [done|simpl; lia]. }
  destruct (js_get_defined (history (hooks s))
              (currentHistoryIndex (hooks s) + 1) Hdef) as (img & Hl & _); [lia|].
  exists img. split; [done|].
  assert (js_get (redoHistory (hooks s)) (Z.of_nat m - 1) = DataURL img) as Htop.
  { apply js_get_lookup; [lia|].
    rewrite (Hmir (Z.to_nat (Z.of_nat m - 1))) by lia.
    rewrite <- Hl. f_equal. lia. }
  unfold redoLastStroke. rewrite Fr. fold m.
  destruct (Z.ltb_spec 0 (Z.of_nat m)); [|lia].
  rewrite Htop. unfold setRedoHistory at 1. simpl.
  unfold setRedoHistory. simpl. by rewrite js_slice0_pop.
Qed.

(** A commit: [history] is cut after the cursor, the bitmap is appended,
    the cursor advances and [redoHistory] is emptied. *)
Lemma saveStateToHistory_effect c s :
  fresh c (hooks s) ->
  -1 <= currentHistoryIndex (hooks s) <= Z.of_nat (length (history (hooks s))) - 1 ->
  saveStateToHistory c s =
    setRedoHistory (fun _ => [])
      (setCurrentHistoryIndex (fun i => i + 1)
         (setHistory (fun h => take (Z.to_nat (currentHistoryIndex (hooks s) + 1)) h
                               ++ [toDataURL (canvas s)]) s)).
Proof.
  intros (Fh & Fr & Fi) Hi. unfold saveStateToHistory. rewrite Fh, Fi.
  destruct (Z.ltb_spec (currentHistoryIndex (hooks s))
              (Z.of_nat (length (history (hooks s))) - 1)).
  - unfold setHistory at 2. simpl. by rewrite js_slice0_take by lia.
  - unfold setHistory. simpl. rewrite take_ge by lia. done.
Qed.

End Handlers.

(** ** The invariant is kept *)

Lemma hist_ok_bounds h :
  hist_ok h ->
  -1 <= currentHistoryIndex h <= Z.of_nat (length (history h)) - 1.
Proof. intros [Hlo Hup _ _]. lia. Qed.

Lemma hist_ok_undo d e hs rd ix :
  hist_ok {| isDrawing := d; isEraser := e; history := hs; redoHistory := rd;
             currentHistoryIndex := ix |} ->
  0 < ix ->
  hist_ok {| isDrawing := d; isEraser := e; history := hs;
             redoHistory := rd ++ [js_get hs ix]; currentHistoryIndex := ix - 1 |}.
Proof.
  intros [Hlo Hup Hmir Hdef] Hpos; simpl in *.
  constructor; simpl; rewrite ?length_app; simpl; [lia|lia| |done].
  intros j Hj.
  destruct (decide (j < length rd)%nat) as [Hlt|Hge].
  - rewrite lookup_app_l by done. rewrite Hmir by done. f_equal. lia.
  - assert (j = length rd) as -> by lia.
    rewrite list_lookup_middle by done.
    destruct (js_get_defined hs ix Hdef) as (img & Hl & ->); [lia|].
    rewrite <- Hl. f_equal. lia.
Qed.

Lemma hist_ok_redo d e hs rd ix v :
  hist_ok {| isDrawing := d; isEraser := e; history := hs; redoHistory := rd;
             currentHistoryIndex := ix |} ->
  rd <> [] ->
  hs !! Z.to_nat (ix + 1) = Some v ->
  hist_ok {| isDrawing := d; isEraser := e; history := hs ++ [v];
             redoHistory := take (length rd - 1) rd;
             currentHistoryIndex := ix + 1 |}.
Proof.
  intros [Hlo Hup Hmir Hdef] Hne Hv; simpl in *.
  assert (0 < length rd)%nat as Hm by (destruct rd; [done|simpl; lia]).
  constructor; simpl; rewrite ?length_app, ?length_take; simpl.
  - lia.
  - lia.
  - intros j Hj. rewrite lookup_take_lt by lia.
    rewrite Hmir by lia. rewrite lookup_app_l by lia. f_equal. lia.
  - apply Forall_app. split; [done|].
    apply Forall_singleton. eapply (proj1 (Forall_lookup _ _) Hdef); eauto.
Qed.

Lemma hist_ok_commit d e hs ix px :
  -1 <= ix <= Z.of_nat (length hs) - 1 ->
  Forall (fun v => v <> Undefined) hs ->
  hist_ok {| isDrawing := d; isEraser := e;
             history := take (Z.to_nat (ix + 1)) hs ++ [toDataURL px];
             redoHistory := []; currentHistoryIndex := ix + 1 |}.
Proof.
  intros Hi Hdef.
  constructor; simpl; rewrite ?length_app, ?length_take; simpl.
  - lia.
  - lia.
  - intros j Hj. lia.
  - apply Forall_app. split; [by apply Forall_take|].
    by apply Forall_singleton.
Qed.

Lemma hist_ok_isDrawing d d' e hs rd ix :
  hist_ok {| isDrawing := d; isEraser := e; history := hs; redoHistory := rd;
             currentHistoryIndex := ix |} ->
  hist_ok {| isDrawing := d'; isEraser := e; history := hs; redoHistory := rd;
             currentHistoryIndex := ix |}.
Proof. intros [Hlo Hup Hmir Hdef]. by constructor. Qed.

Lemma key_exclusive (key : string) :
  String.eqb key "z" && String.eqb key "y" = false.
Proof.
  destruct (String.eqb_spec key "z") as [->|]; [done|done].
Qed.

(** What the handlers leave in the hooks, whatever render they close
    over. *)
Lemma hooks_set_src v s : hooks (set_src v s) = hooks s.
Proof. by destruct v. Qed.

Lemma hooks_undoLastStroke c s :
  0 < currentHistoryIndex c ->
  hooks (undoLastStroke c s) =
    {| isDrawing := isDrawing (hooks s); isEraser := isEraser (hooks s);
       history := history (hooks s);
       redoHistory := redoHistory (hooks s)
                      ++ [js_get (history c) (currentHistoryIndex c)];
       currentHistoryIndex := currentHistoryIndex (hooks s) - 1 |}.
Proof.
  intros Hpos. unfold undoLastStroke.
  destruct (Z.ltb_spec 0 (currentHistoryIndex c)); [|lia].
  by rewrite hooks_set_src.
Qed.

Lemma hooks_redoLastStroke c s :
  redoHistory c <> [] ->
  hooks (redoLastStroke c s) =
    {| isDrawing := isDrawing (hooks s); isEraser := isEraser (hooks s);
       history := history (hooks s)
                  ++ [js_get (redoHistory c) (Z.of_nat (length (redoHistory c)) - 1)];
       redoHistory := take (length (redoHistory (hooks s)) - 1) (redoHistory (hooks s));
       currentHistoryIndex := currentHistoryIndex (hooks s) + 1 |}.
Proof.
  intros Hne. unfold redoLastStroke.
  destruct (Z.ltb_spec 0 (Z.of_nat (length (redoHistory c)))) as [_|Hle].
  2:{ destruct (redoHistory c); [done|simpl in Hle; lia]. }
  unfold setRedoHistory, setCurrentHistoryIndex, setHistory. simpl.
  by rewrite hooks_set_src, js_slice0_pop.
Qed.

Lemma depsChanged_undoLastStroke c s :
  0 < currentHistoryIndex c -> depsChanged (undoLastStroke c s) = true.
Proof.
  intros Hpos. unfold undoLastStroke, set_src.
  destruct (Z.ltb_spec 0 (currentHistoryIndex c)); [|lia].
  by case_match.
Qed.

Lemma depsChanged_redoLastStroke c s :
  redoHistory c <> [] -> depsChanged (redoLastStroke c s) = true.
Proof.
  intros Hne. unfold redoLastStroke.
  destruct (Z.ltb_spec 0 (Z.of_nat (length (redoHistory c)))) as [_|Hle]; [done|].
  destruct (redoHistory c); [done|simpl in Hle; lia].
Qed.

(** A key press runs nothing, the undo or the redo. *)
Lemma handleKeyDown_cases c ck mk key s :
  handleKeyDown c ck mk key s = s \/
  (0 < currentHistoryIndex c /\ handleKeyDown c ck mk key s = undoLastStroke c s) \/
  (redoHistory c <> [] /\ handleKeyDown c ck mk key s = redoLastStroke c s).
Proof.
  unfold handleKeyDown. pose proof (key_exclusive key) as Hex.
  destruct (ck || mk); simpl; [|by left].
  destruct (String.eqb key "z"), (String.eqb key "y"); simpl in *; try done.
  - destruct (Z.lt_ge_cases 0 (currentHistoryIndex c)).
    + right; left. done.
    + left. by apply undoLastStroke_noop.
  - destruct (decide (redoHistory c = [])) as [Hnil|Hne].
    + left. by apply redoLastStroke_noop.
    + right; right. done.
  - by left.
Qed.

(** [startDrawing] touches only [isDrawing] and the context. *)
Lemma startDrawing_keeps c b x y s :
  keydown (startDrawing c b x y s) = keydown s /\
  depsChanged (startDrawing c b x y s) = depsChanged s /\
  canvas (startDrawing c b x y s) = canvas s /\
  loading (startDrawing c b x y s) = loading s /\
  isEraser (hooks (startDrawing c b x y s)) = isEraser (hooks s) /\
  history (hooks (startDrawing c b x y s)) = history (hooks s) /\
  redoHistory (hooks (startDrawing c b x y s)) = redoHistory (hooks s) /\
  currentHistoryIndex (hooks (startDrawing c b x y s))
    = currentHistoryIndex (hooks s).
Proof.
  unfold startDrawing.
  destruct s as [[d e hs rd ix] cv cx kd dc ld]. by repeat case_match.
Qed.

(** [stopDrawing] when the cursor is inside [history]. *)
Lemma stopDrawing_commit s :
  -1 <= currentHistoryIndex (hooks s) <= Z.of_nat (length (history (hooks s))) - 1 ->
  stopDrawing (hooks s) s = commit s.
Proof.
  intros Hi. unfold stopDrawing, commit.
  by rewrite saveStateToHistory_effect.
Qed.

(** ** Renders *)

Lemma rerender_clean s : depsChanged s = false -> rerender s = s.
Proof. intros Hd. unfold rerender. by rewrite Hd. Qed.

Lemma hooks_rerender s : hooks (rerender s) = hooks s.
Proof. unfold rerender. by destruct (depsChanged s). Qed.

Lemma canvas_rerender s : canvas (rerender s) = canvas s.
Proof. unfold rerender. by destruct (depsChanged s). Qed.

Lemma ctx_rerender s : ctx (rerender s) = ctx s.
Proof. unfold rerender. by destruct (depsChanged s). Qed.

Lemma loading_rerender s : loading (rerender s) = loading s.
Proof. unfold rerender. by destruct (depsChanged s). Qed.

Lemma sync_same s : sync s s = s.
Proof. unfold sync. by case_decide. Qed.

Lemma sync_clean s s' : depsChanged s' = false -> sync s s' = s'.
Proof. intros Hd. unfold sync. case_decide; [done|by apply rerender_clean]. Qed.

Lemma sync_changed s s' :
  currentHistoryIndex (hooks s') <> currentHistoryIndex (hooks s) ->
  sync s s' = rerender s'.
Proof. intros Hne. unfold sync. case_decide as Heq; [|done]. by rewrite Heq in Hne. Qed.

Lemma hooks_sync s s' : hooks (sync s s') = hooks s'.
Proof. unfold sync. case_decide; [done|apply hooks_rerender]. Qed.

Lemma canvas_sync s s' : canvas (sync s s') = canvas s'.
Proof. unfold sync. case_decide; [done|apply canvas_rerender]. Qed.

Lemma ctx_sync s s' : ctx (sync s s') = ctx s'.
Proof. unfold sync. case_decide; [done|apply ctx_rerender]. Qed.

Lemma loading_sync s s' : loading (sync s s') = loading s'.
Proof. unfold sync. case_decide; [done|apply loading_rerender]. Qed.

Lemma strokeEvents_no_leave b p ms :
  Forall (fun e => e <> MouseLeave) (strokeEvents b p ms).
Proof.
  unfold strokeEvents, MouseMoves. constructor; [done|].
  apply Forall_app. split; [|by repeat constructor].
  apply Forall_fmap. by apply Forall_true.
Qed.

Section Invariant.

Variable footprint : Z -> Path -> Raster.

Lemma wf_mount : wf mount.
Proof.
  constructor; [|done|done].
  constructor; simpl; [lia|lia| |by constructor].
  intros j Hj. lia.
Qed.

Lemma wf_live_ok s : wf s -> live_ok s.
Proof. intros [Hok Hf Hd]. by constructor. Qed.

Lemma wf_undo s :
  wf s -> 0 < currentHistoryIndex (hooks s) ->
  wf (rerender (undoLastStroke (keydown s) s)).
Proof.
  intros [Hok Hf Hd] Hpos.
  destruct (undoLastStroke_effect _ s Hf Hok Hpos) as (img & _ & ->).
  destruct s as [[d e hs rd ix] cv cx kd dc ld]; simpl in *.
  constructor; simpl; [|done|done].
  by apply hist_ok_undo.
Qed.

Lemma wf_redo s :
  wf s -> redoHistory (hooks s) <> [] ->
  wf (rerender (redoLastStroke (keydown s) s)).
Proof.
  intros [Hok Hf Hd] Hne.
  destruct (redoLastStroke_effect _ s Hf Hok Hne) as (img & Hl & ->).
  destruct s as [[d e hs rd ix] cv cx kd dc ld]; simpl in *.
  constructor; simpl; [|done|done].
  by apply hist_ok_redo.
Qed.

Lemma hist_ok_commit_state s :
  hist_ok (hooks s) -> hist_ok (hooks (commit s)).
Proof.
  intros Hok. pose proof (hist_ok_bounds _ Hok) as Hb.
  destruct Hok as [_ _ _ Hdef].
  destruct s as [[d e hs rd ix] cv cx kd dc ld]; simpl in *.
  apply hist_ok_commit; [lia|done].
Qed.

(** A commit rendered at once. *)
Lemma wf_commit s : hist_ok (hooks s) -> wf (rerender (commit s)).
Proof.
  intros Hok. pose proof (hist_ok_commit_state s Hok) as Hok'.
  unfold rerender. replace (depsChanged (commit s)) with true by done.
  by constructor.
Qed.

(** The invariant survives every event but a pointer-leave. *)
Lemma wf_step s e : wf s -> e <> MouseLeave -> wf (step footprint s e).
Proof.
  intros Hwf He.
  assert (depsChanged s = false) as Hd by (by destruct Hwf).
  destruct e as [b x y|x y| | | |ck mk key|n|]; unfold step; try done.
  - destruct Hwf as [Hok Hf _].
    rewrite sync_clean.
    + unfold startDrawing. destruct ((b =? 0) || (b =? 2)); [|by constructor].
      destruct s as [[d e hs rd ix] cv cx kd dc ld]; simpl in *.
      destruct ((b =? 2) || e);
        (constructor; simpl; [by eapply hist_ok_isDrawing|done|done]).
    + unfold startDrawing.
      destruct s as [[d e hs rd ix] cv cx kd dc ld]. by repeat case_match.
  - destruct Hwf as [Hok Hf _]. unfold draw.
    destruct (negb (isDrawing (hooks s))); by constructor.
  - pose proof (wf_hist _ Hwf) as Hok.
    rewrite stopDrawing_commit by (by apply hist_ok_bounds).
    rewrite sync_changed; [by apply wf_commit|].
    destruct s as [[d e hs rd ix] cv cx kd dc ld]; simpl. lia.
  - destruct (handleKeyDown_cases (keydown s) ck mk key s)
      as [-> | [[Hpos ->] | [Hne ->]]].
    + by rewrite sync_same.
    + rewrite sync_changed.
      * apply wf_undo; [done|]. by destruct Hwf as [_ (_ & _ & <-) _].
      * rewrite hooks_undoLastStroke by done. simpl. lia.
    + rewrite sync_changed.
      * apply wf_redo; [done|]. by destruct Hwf as [_ (_ & <- & _) _].
      * rewrite hooks_redoLastStroke by done. simpl. lia.
  - destruct Hwf as [Hok Hf _]. unfold onload.
    destruct (loading s !! n); by constructor.
  - by rewrite rerender_clean.
Qed.

Lemma wf_run s es :
  wf s -> Forall (fun e => e <> MouseLeave) es -> wf (run footprint s es).
Proof.
  revert s. induction es as [|e es IH]; intros s Hwf Hes; [done|].
  apply Forall_cons in Hes as [He Hes].
  simpl. apply IH; [|done]. by apply wf_step.
Qed.

(** Between a pointer-leave and the render: events other than key presses
    keep the live history in order. *)
Lemma live_ok_step s e :
  live_ok s -> ~ key_event e -> live_ok (step footprint s e).
Proof.
  intros [Hok Hf] He.
  assert (live_ok (rerender (commit s))) as Hup
    by (by apply wf_live_ok, wf_commit).
  destruct e as [b x y|x y| | | |ck mk key|n|]; unfold step.
  - destruct (startDrawing_keeps (hooks s) b x y s)
      as (Hk & Hdc & _ & _ & _ & Hh & Hr & Hi).
    assert (hist_ok (hooks (startDrawing (hooks s) b x y s))) as Hok'.
    { unfold startDrawing. destruct ((b =? 0) || (b =? 2)); [|done].
      destruct s as [[d e hs rd ix] cv cx kd dc ld]; simpl in *.
      destruct ((b =? 2) || e); simpl; by eapply hist_ok_isDrawing. }
    assert (depsChanged (startDrawing (hooks s) b x y s) = false ->
            fresh (keydown (startDrawing (hooks s) b x y s))
                  (hooks (startDrawing (hooks s) b x y s))) as Hf'.
    { rewrite Hdc, Hk. intros Hd. unfold fresh. rewrite Hh, Hr, Hi. by apply Hf. }
    unfold sync. case_decide as Heq; [by constructor|].
    unfold rerender. destruct (depsChanged (startDrawing (hooks s) b x y s)).
    + constructor; simpl; [done|]. by intros _.
    + constructor; [done|]. intros _. by apply Hf'.
  - unfold draw. destruct (negb (isDrawing (hooks s))); by constructor.
  - rewrite stopDrawing_commit by (by apply hist_ok_bounds).
    rewrite sync_changed; [done|].
    destruct s as [[d e hs rd ix] cv cx kd dc ld]; simpl. lia.
  - rewrite stopDrawing_commit by (by apply hist_ok_bounds).
    constructor; [by apply hist_ok_commit_state|]. done.
  - by constructor.
  - by destruct He.
  - unfold onload. destruct (loading s !! n); by constructor.
  - unfold rerender. destruct (depsChanged s).
    + constructor; simpl; [done|]. by intros _.
    + constructor; [done|]. intros _. by apply Hf.
Qed.

Lemma live_ok_run s es :
  live_ok s -> Forall (fun e => ~ key_event e) es -> live_ok (run footprint s es).
Proof.
  revert s. induction es as [|e es IH]; intros s Hs Hes; [done|].
  apply Forall_cons in Hes as [He Hes].
  simpl. apply IH; [|done]. by apply live_ok_step.
Qed.

Lemma live_ok_Render s : live_ok s -> wf (step footprint s Render).
Proof.
  intros [Hok Hf]. unfold step, rerender. destruct (depsChanged s) eqn:Hd.
  - by constructor.
  - constructor; [done|by apply Hf|done].
Qed.

(** With the renders keeping up, every state has the history invariant
    and a current key listener. *)
Lemma rendered_wf s : rendered footprint s -> wf s.
Proof.
  induction 1 as [|s e Hs IH He|s es Hs IH Hes].
  - apply wf_mount.
  - by apply wf_step.
  - apply live_ok_Render, live_ok_run; [|done].
    apply live_ok_step; [by apply wf_live_ok|by intros []].
Qed.

Lemma rendered_reachable s : rendered footprint s -> reachable footprint s.
Proof.
  induction 1 as [|s e Hs IH He|s es Hs IH Hes].
  - constructor.
  - by constructor.
  - constructor.
    assert (forall t, reachable footprint t -> reachable footprint (run footprint t es))
      as Hrun.
    { clear. induction es as [|e es IH]; intros t Ht; [done|].
      simpl. apply IH. by constructor. }
    apply Hrun. by constructor.
Qed.

Lemma rendered_run s es :
  rendered footprint s -> Forall (fun e => e <> MouseLeave) es ->
  rendered footprint (run footprint s es).
Proof.
  revert s. induction es as [|e es IH]; intros s Hs Hes; [done|].
  apply Forall_cons in Hes as [He Hes].
  simpl. apply IH; [|done]. by constructor.
Qed.


End Invariant.

(** ** Every reachable state *)

Lemma sound_isDrawing d d' e hs rd ix :
  sound {| isDrawing := d; isEraser := e; history := hs; redoHistory := rd;
           currentHistoryIndex := ix |} ->
  sound {| isDrawing := d'; isEraser := e; history := hs; redoHistory := rd;
           currentHistoryIndex := ix |}.
Proof. intros [H1 H2 H3 H4]. by constructor. Qed.

Lemma sound_commit s : sound (hooks s) -> sound (hooks (commit s)).
Proof.
  intros [Hlo Hup Hh Hr].
  destruct s as [[d e hs rd ix] cv cx kd dc ld]; simpl in *.
  constructor; simpl; rewrite ?length_app, ?length_take; simpl; [lia|lia| |done].
  apply Forall_app. split; [by apply Forall_take|by apply Forall_singleton].
Qed.

(** An undo, even through a listener bound at an older render. *)
Lemma sound_undo c s :
  sound (hooks s) -> sound c ->
  currentHistoryIndex c <= currentHistoryIndex (hooks s) ->
  0 < currentHistoryIndex c ->
  sound (hooks (undoLastStroke c s)).
Proof.
  intros [Hlo Hup Hh Hr] [Hclo Hcup Hch Hcr] Hle Hpos.
  rewrite hooks_undoLastStroke by done.
  constructor; simpl; [lia|lia|done|].
  apply Forall_app. split; [done|]. apply Forall_singleton.
  destruct (js_get_defined (history c) (currentHistoryIndex c) Hch)
    as (img & _ & ->); [lia|done].
Qed.

Lemma sound_redo c s :
  sound (hooks s) -> sound c -> redoHistory c <> [] ->
  sound (hooks (redoLastStroke c s)).
Proof.
  intros [Hlo Hup Hh Hr] [Hclo Hcup Hch Hcr] Hne.
  rewrite hooks_redoLastStroke by done.
  assert (0 < length (redoHistory c))%nat as Hm
    by (destruct (redoHistory c); [done|simpl; lia]).
  constructor; simpl; rewrite ?length_app; simpl; [lia|lia| |by apply Forall_take].
  apply Forall_app. split; [done|]. apply Forall_singleton.
  destruct (js_get_defined (redoHistory c)
              (Z.of_nat (length (redoHistory c)) - 1) Hcr)
    as (img & _ & ->); [lia|done].
Qed.

Lemma inv_flush s : sound (hooks s) -> inv (rerender s) \/ depsChanged s = false.
Proof.
  intros Hs. destruct (depsChanged s) eqn:Hd; [left|by right].
  unfold rerender. rewrite Hd. constructor; simpl; [done|done|lia|done].
Qed.

Section Reachable.

Variable footprint : Z -> Path -> Raster.

Lemma inv_mount : inv mount.
Proof.
  assert (sound mount_hooks) as Hs.
  { constructor; simpl; [lia|lia|by constructor|by constructor]. }
  constructor; simpl; [done|done|lia|done].
Qed.

Lemma inv_rerender s : inv s -> inv (rerender s).
Proof.
  intros Hinv. destruct (inv_flush s (inv_live _ Hinv)) as [H|Hd]; [done|].
  by rewrite rerender_clean.
Qed.

Lemma inv_step s e : inv s -> inv (step footprint s e).
Proof.
  intros Hinv. pose proof Hinv as [Hl Hc Hle Hf].
  destruct e as [b x y|x y| | | |ck mk key|n|]; unfold step.
  - destruct (startDrawing_keeps (hooks s) b x y s)
      as (Hk & Hdc & _ & _ & _ & Hh & Hr & Hi).
    assert (inv (startDrawing (hooks s) b x y s)) as Hinv'.
    { constructor.
      - unfold startDrawing. destruct ((b =? 0) || (b =? 2)); [|done].
        destruct s as [[d e hs rd ix] cv cx kd dc ld]; simpl in *.
        destruct ((b =? 2) || e); simpl; by eapply sound_isDrawing.
      - by rewrite Hk.
      - rewrite Hk, Hi. done.
      - rewrite Hdc, Hk. intros Hd. unfold fresh. rewrite Hh, Hr, Hi. by apply Hf. }
    unfold sync. case_decide; [done|by apply inv_rerender].
  - unfold draw. destruct (negb (isDrawing (hooks s))); [done|by constructor].
  - rewrite stopDrawing_commit by (destruct Hl; lia).
    rewrite sync_changed
      by (destruct s as [[d e hs rd ix] cv cx kd dc ld]; simpl; lia).
    by destruct (inv_flush (commit s) (sound_commit s Hl)) as [H|Hd].
  - rewrite stopDrawing_commit by (destruct Hl; lia).
    constructor; [by apply sound_commit|done| |done].
    destruct s as [[d e hs rd ix] cv cx kd dc ld]; simpl in *. lia.
  - done.
  - destruct (handleKeyDown_cases (keydown s) ck mk key s)
      as [-> | [[Hpos ->] | [Hne ->]]].
    + by rewrite sync_same.
    + rewrite sync_changed by (rewrite hooks_undoLastStroke by done; simpl; lia).
      destruct (inv_flush (undoLastStroke (keydown s) s)) as [H|Hd];
        [by apply sound_undo|done|].
      by rewrite depsChanged_undoLastStroke in Hd.
    + rewrite sync_changed by (rewrite hooks_redoLastStroke by done; simpl; lia).
      destruct (inv_flush (redoLastStroke (keydown s) s)) as [H|Hd];
        [by apply sound_redo|done|].
      by rewrite depsChanged_redoLastStroke in Hd.
  - unfold onload. destruct (loading s !! n); [by constructor|done].
  - by apply inv_rerender.
Qed.

Lemma reachable_inv s : reachable footprint s -> inv s.
Proof. induction 1; [apply inv_mount|by apply inv_step]. Qed.

End Reachable.
(** ** Compositing *)

Lemma composite_SourceOver_clear (img : Raster) : composite SourceOver img ∅ = img.
Proof. unfold composite. apply (left_id_L ∅ (∪)). Qed.

Lemma composite_DestinationOut_clear (img : Raster) :
  composite DestinationOut img ∅ = ∅.
Proof.
  unfold composite. apply set_eq. intros p.
  rewrite elem_of_difference. split; [by intros [? _]|].
  intros Hp. by apply not_elem_of_empty in Hp.
Qed.

(** ** Steps *)

Section Steps.

Variable footprint : Z -> Path -> Raster.

Abbreviation step := (step footprint).
Abbreviation run := (run footprint).
Abbreviation reachable := (reachable footprint).

Lemma run_app s es1 es2 : run s (es1 ++ es2) = run (run s es1) es2.
Proof. apply foldl_app. Qed.

Lemma run_snoc s es e : run s (es ++ [e]) = step (run s es) e.
Proof. by rewrite run_app. Qed.

Lemma step_undo_noop s :
  wf s -> currentHistoryIndex (hooks s) <= 0 -> step s undo = s.
Proof.
  intros [_ (_ & _ & Fi) Hd] Hi. unfold step, undo, handleKeyDown. simpl.
  rewrite undoLastStroke_noop by lia. by apply sync_same.
Qed.

Lemma step_redo_noop s :
  wf s -> redoHistory (hooks s) = [] -> step s redo = s.
Proof.
  intros [_ (_ & Fr & _) Hd] Hr. unfold step, redo, handleKeyDown. simpl.
  rewrite redoLastStroke_noop by congruence. by apply sync_same.
Qed.

Lemma step_undo_effect s :
  wf s -> 0 < currentHistoryIndex (hooks s) ->
  exists img,
    history (hooks s) !! Z.to_nat (currentHistoryIndex (hooks s) - 1)
      = Some (DataURL img) /\
    step s undo =
      rerender
        (set_loading (loading s ++ [img])
           (setCurrentHistoryIndex (fun i => i - 1)
              (setRedoHistory (fun r => r ++ [current (hooks s)]) s))).
Proof.
  intros [Hok Hf Hd] Hpos.
  destruct (undoLastStroke_effect (keydown s) s Hf Hok Hpos) as (img & Hl & He).
  exists img. split; [done|].
  unfold step, undo, handleKeyDown. simpl. rewrite <- He.
  apply sync_changed. rewrite hooks_undoLastStroke; [simpl; lia|].
  by destruct Hf as (_ & _ & ->).
Qed.

Lemma step_redo_effect s :
  wf s -> redoHistory (hooks s) <> [] ->
  exists img,
    history (hooks s) !! Z.to_nat (currentHistoryIndex (hooks s) + 1)
      = Some (DataURL img) /\
    step s redo =
      rerender
        (setRedoHistory (fun r => take (length r - 1) r)
           (setCurrentHistoryIndex (fun i => i + 1)
              (setHistory (fun h => h ++ [DataURL img])
                 (set_loading (loading s ++ [img]) s)))).
Proof.
  intros [Hok Hf Hd] Hne.
  destruct (redoLastStroke_effect (keydown s) s Hf Hok Hne) as (img & Hl & He).
  exists img. split; [done|].
  unfold step, redo, handleKeyDown. simpl. rewrite <- He.
  apply sync_changed. rewrite hooks_redoLastStroke; [simpl; lia|].
  by destruct Hf as (_ & -> & _).
Qed.

(** A release renders the commit at once; a pointer-leave leaves it to a
    later render. *)
Lemma step_MouseUp s :
  -1 <= currentHistoryIndex (hooks s) <= Z.of_nat (length (history (hooks s))) - 1 ->
  step s MouseUp = rerender (commit s).
Proof.
  intros Hi. unfold step. rewrite stopDrawing_commit by done.
  apply sync_changed. destruct s as [[d e hs rd ix] cv cx kd dc ld]; simpl. lia.
Qed.

Lemma step_MouseLeave s :
  -1 <= currentHistoryIndex (hooks s) <= Z.of_nat (length (history (hooks s))) - 1 ->
  step s MouseLeave = commit s.
Proof. intros Hi. unfold step. by apply stopDrawing_commit. Qed.

Lemma step_stop s e :
  e = MouseUp \/ e = MouseLeave ->
  -1 <= currentHistoryIndex (hooks s) <= Z.of_nat (length (history (hooks s))) - 1 ->
  hooks (step s e) = hooks (commit s) /\ canvas (step s e) = canvas s /\
  ctx (step s e) = closePath (ctx s) /\ loading (step s e) = loading s.
Proof.
  intros [-> | ->] Hi.
  - rewrite step_MouseUp by done.
    rewrite hooks_rerender, canvas_rerender, ctx_rerender, loading_rerender.
    by destruct s as [[] ? ? ? ? ?].
  - rewrite step_MouseLeave by done. by destruct s as [[] ? ? ? ? ?].
Qed.

Lemma step_ImageLoad s n img :
  loading s !! n = Some img ->
  step s (ImageLoad n) =
    set_loading (delete n (loading s))
      (set_canvas (drawImage (ctx s) img ∅) s).
Proof. intros Hl. unfold step, onload. by rewrite Hl. Qed.


(** Ctrl+Z and Cmd+Z are the same request, and so are Ctrl+Y and Cmd+Y. *)
Lemma step_modifier s ck mk :
  ck || mk = true ->
  step s (KeyDown ck mk "z") = step s undo /\
  step s (KeyDown ck mk "y") = step s redo.
Proof.
  intros Hmod. unfold step, undo, redo, handleKeyDown. by rewrite Hmod.
Qed.

(** Pointer moves with no button held change nothing. *)
Lemma step_MouseMove_idle s x y :
  isDrawing (hooks s) = false -> step s (MouseMove x y) = s.
Proof. intros Hi. unfold step, draw. by rewrite Hi. Qed.

Lemma run_MouseMoves_idle s ms :
  isDrawing (hooks s) = false -> run s (MouseMoves ms) = s.
Proof.
  intros Hi. induction ms as [|m ms IH]; [done|].
  simpl. unfold run in *. simpl. by rewrite step_MouseMove_idle.
Qed.

(** Dragging with a button held extends the path and inks the bitmap. *)
Lemma run_MouseMoves_drawing s ms :
  isDrawing (hooks s) = true ->
  run s (MouseMoves ms) =
    set_canvas (drag footprint ms (ctx s) (canvas s)).2
      (set_ctx (drag footprint ms (ctx s) (canvas s)).1 s).
Proof.
  revert s. induction ms as [|m ms IH]; intros s Hi.
  - by destruct s.
  - unfold drag. simpl.
    assert (step s (MouseMove m.1 m.2) =
            set_canvas (stroke footprint (lineTo m.1 m.2 (ctx s)) (canvas s))
              (set_ctx (lineTo m.1 m.2 (ctx s)) s)) as Hs.
    { unfold step, draw. by rewrite Hi. }
    unfold run in *. simpl. rewrite Hs.
    rewrite IH by done. done.
Qed.

End Steps.

(** ** Decodes *)

Section Decodes.

Variable footprint : Z -> Path -> Raster.

Abbreviation step := (step footprint).
Abbreviation run := (run footprint).

Lemma drawImage_SourceOver (c : Context2D) (img : Raster) :
  globalCompositeOperation c = SourceOver -> drawImage c img (∅ : Raster) = img.
Proof.
  intros Hc. unfold drawImage. rewrite Hc. apply composite_SourceOver_clear.
Qed.

Lemma drawImage_DestinationOut (c : Context2D) (img : Raster) :
  globalCompositeOperation c = DestinationOut -> drawImage c img (∅ : Raster) = ∅.
Proof.
  intros Hc. unfold drawImage. rewrite Hc. apply composite_DestinationOut_clear.
Qed.








End Decodes.
(** ** Properties of the operations *)

Lemma DataURL_inj (a b : Raster) : DataURL a = DataURL b -> a = b.
Proof. by intros [= ->]. Qed.

Section Operations.

Variable footprint : Z -> Path -> Raster.

Abbreviation step := (step footprint).
Abbreviation run := (run footprint).
Abbreviation reachable := (reachable footprint).
Abbreviation rendered := (rendered footprint).

(** In every state the component can reach the cursor is inside
    [history]: [-1 <= currentHistoryIndex <= history.length - 1]. *)
Lemma index_invariant s :
  reachable s ->
  -1 <= currentHistoryIndex (hooks s) <= Z.of_nat (length (history (hooks s))) - 1.
Proof. intros Hs. destruct (reachable_inv footprint s Hs) as [[] _ _ _]. lia. Qed.

(** C8: [startDrawing] (beginStroke).  A press of the secondary button
    (2), or of the primary button (0) with the eraser toggle on, starts a
    stroke in erase mode: compositing "destination-out", line width 20.  A
    press of the primary button with the toggle off starts a stroke in pen
    mode: compositing "source-over", line width 2.  In both cases the path
    restarts at the point and [isDrawing] becomes true.  A press of any
    other button returns the state unchanged. *)
Theorem startDrawing_selects_mode c button x y s :
  let s' := startDrawing c button x y s in
  let start := [{| points := [(x, y)]; closed := false |}] in
  (button = 2 \/ (button = 0 /\ isEraser c = true) ->
     globalCompositeOperation (ctx s') = DestinationOut /\
     lineWidth (ctx s') = 20 /\
     path (ctx s') = start /\ isDrawing (hooks s') = true) /\
  (button = 0 /\ isEraser c = false ->
     globalCompositeOperation (ctx s') = SourceOver /\
     lineWidth (ctx s') = 2 /\
     path (ctx s') = start /\ isDrawing (hooks s') = true) /\
  (button <> 0 /\ button <> 2 -> s' = s).
Proof.
  simpl. unfold startDrawing. split; [|split].
  - by intros [-> | [-> ->]].
  - by intros [-> ->].
  - intros [H0 H2]. apply Z.eqb_neq in H0, H2. by rewrite H0, H2.
Qed.


(** C9: [stopDrawing] does not test [isDrawing].  In a state with no
    stroke in progress, moving the pointer over the canvas and then
    releasing a button or leaving the canvas still commits: the bitmap is
    untouched, a snapshot of it is appended after the cursor, the cursor
    advances and [redoHistory] is emptied.  When the bitmap already showed
    the entry under the cursor, the appended entry is a duplicate of it. *)
Theorem stopDrawing_without_stroke s ms e :
  wf s ->
  isDrawing (hooks s) = false ->
  e = MouseUp \/ e = MouseLeave ->
  let i := currentHistoryIndex (hooks s) in
  let s' := run s (MouseMoves ms ++ [e]) in
  canvas s' = canvas s /\
  history (hooks s') = take (Z.to_nat (i + 1)) (history (hooks s)) ++ [toDataURL (canvas s)] /\
  currentHistoryIndex (hooks s') = i + 1 /\
  redoHistory (hooks s') = [] /\
  (shows s (current (hooks s)) ->
   js_get (history (hooks s')) (i + 1) = js_get (history (hooks s')) i).
Proof.
  intros Hwf Hidle He. simpl.
  rewrite run_snoc, run_MouseMoves_idle by done.
  pose proof (hist_ok_bounds _ (wf_hist _ Hwf)) as Hi.
  assert (Z.of_nat (length (take (Z.to_nat (currentHistoryIndex (hooks s) + 1))
                              (history (hooks s))))
          = currentHistoryIndex (hooks s) + 1) as Hlen
    by (rewrite length_take; lia).
  destruct (step_stop footprint s e He Hi) as (Hh & Hc & _ & _).
  rewrite Hh, Hc. clear Hh Hc.
  destruct s as [[d er hs rd ix] cv cx kd dc ld]; simpl in *.
  repeat split; try done.
  unfold shows, current. simpl. intros Hshow.
  assert (0 <= ix) as Hix.
  { destruct (Z.ltb_spec ix 0) as [Hneg|]; [|done].
    unfold js_get in Hshow.
    destruct (Z.ltb_spec ix 0); [done|lia]. }
  rewrite (js_get_lookup _ (ix + 1) (toDataURL cv)); [|lia|].
  2:{ apply list_lookup_middle. lia. }
  symmetry. apply js_get_lookup; [done|].
  rewrite lookup_app_l by lia. rewrite lookup_take_lt by lia.
  unfold js_get in Hshow. destruct (Z.ltb_spec ix 0); [lia|].
  destruct (hs !! Z.to_nat ix) as [v|] eqn:Hv; simpl in Hshow; [by subst|done].
Qed.

(** With the listener current, a request whose precondition fails changes
    nothing: undo with the cursor at 0 or with an empty [history], redo
    with an empty [redoHistory], and a pointer move while [isDrawing] is
    false. *)
Lemma noop_requests s x y :
  wf s ->
  (currentHistoryIndex (hooks s) = 0 \/ history (hooks s) = [] -> step s undo = s) /\
  (redoHistory (hooks s) = [] -> step s redo = s) /\
  (isDrawing (hooks s) = false -> step s (MouseMove x y) = s).
Proof.
  intros Hwf.
  pose proof (hist_ok_bounds _ (wf_hist _ Hwf)) as Hi.
  split; [|split].
  - intros [H0 | Hnil]; apply step_undo_noop; try done; [lia|].
    rewrite Hnil in Hi. simpl in Hi. lia.
  - by apply step_redo_noop.
  - apply step_MouseMove_idle.
Qed.

(** An undo never takes effect with the live cursor at 0 or below, even
    through a listener bound at an older render. *)
Lemma undo_at_first_snapshot s :
  reachable s -> currentHistoryIndex (hooks s) <= 0 -> step s undo = s.
Proof.
  intros Hs Hi. destruct (reachable_inv footprint s Hs) as [_ _ Hle _].
  unfold step, undo, handleKeyDown. simpl.
  rewrite undoLastStroke_noop by lia. apply sync_same.
Qed.

(** A release renders its commit at once: whatever came before,
    [redoHistory] is empty, the listener sees it, and a redo changes
    nothing. *)
Lemma redo_after_release s :
  reachable s ->
  let s' := step s MouseUp in
  redoHistory (hooks s') = [] /\
  currentHistoryIndex (hooks s') = Z.of_nat (length (history (hooks s'))) - 1 /\
  step s' redo = s'.
Proof.
  intros Hs. simpl.
  assert (-1 <= currentHistoryIndex (hooks s)
          <= Z.of_nat (length (history (hooks s))) - 1) as Hi
    by by apply index_invariant.
  rewrite step_MouseUp by done.
  assert (rerender (commit s)
          = {| hooks := hooks (commit s); canvas := canvas (commit s);
               ctx := ctx (commit s); keydown := hooks (commit s);
               depsChanged := false; loading := loading (commit s) |}) as ->
    by done.
  split; [by destruct s as [[] ? ? ? ? ?]|]. split.
  - destruct s as [[d er hs rd ix] cv cx kd dc ld]; simpl in *.
    rewrite length_app, length_take. simpl. lia.
  - unfold step, redo, handleKeyDown. simpl.
    rewrite redoLastStroke_noop by (by destruct s as [[] ? ? ? ? ?]).
    apply sync_same.
Qed.

(** *** Strokes *)

Lemma gco_lineTo x y c :
  globalCompositeOperation (lineTo x y c) = globalCompositeOperation c.
Proof. unfold lineTo. by destruct (path c). Qed.

Lemma gco_closePath c :
  globalCompositeOperation (closePath c) = globalCompositeOperation c.
Proof. unfold closePath. by destruct (path c). Qed.

Lemma gco_drag ms c px :
  globalCompositeOperation (drag footprint ms c px).1 = globalCompositeOperation c.
Proof.
  revert c px. induction ms as [|m ms IH]; intros c px; [done|].
  unfold drag in *. simpl. by rewrite IH, gco_lineTo.
Qed.

(** A whole pen stroke: the bitmap is inked along the path and
    committed. *)
Lemma run_pen_stroke s p ms :
  wf s -> isEraser (hooks s) = false ->
  let px := inked footprint p ms (canvas s) in
  let h := {| isDrawing := false; isEraser := false;
              history := take (Z.to_nat (currentHistoryIndex (hooks s) + 1))
                           (history (hooks s)) ++ [DataURL px];
              redoHistory := [];
              currentHistoryIndex := currentHistoryIndex (hooks s) + 1 |} in
  run s (strokeEvents 0 p ms) =
    {| hooks := h; canvas := px;
       ctx := closePath (drag footprint ms (pen_start p) (canvas s)).1;
       keydown := h; depsChanged := false; loading := loading s |}.
Proof.
  intros Hwf Her. simpl.
  pose proof (hist_ok_bounds _ (wf_hist _ Hwf)) as Hi.
  assert (depsChanged s = false) as Hd by (by destruct Hwf).
  unfold strokeEvents.
  change (run s (MouseDown 0 p.1 p.2 :: MouseMoves ms ++ [MouseUp]))
    with (run (step s (MouseDown 0 p.1 p.2)) (MouseMoves ms ++ [MouseUp])).
  rewrite run_snoc.
  assert (step s (MouseDown 0 p.1 p.2) =
          set_ctx (pen_start p) (setIsDrawing true s)) as ->.
  { unfold step, startDrawing. rewrite Her. simpl.
    rewrite sync_clean by done. by destruct p. }
  rewrite run_MouseMoves_drawing by done.
  rewrite step_MouseUp by (by destruct s as [[] ? ? ? ? ?]).
  unfold inked, rerender.
  destruct s as [[d er hs rd ix] cv cx kd dc ld]; simpl in *. by subst.
Qed.

(** An undo, then a redo, each with its decode completing at once and no
    other decode pending, while the context composites "source-over". *)
Lemma run_undo_load s :
  wf s -> 0 < currentHistoryIndex (hooks s) ->
  globalCompositeOperation (ctx s) = SourceOver -> loading s = [] ->
  exists img,
    history (hooks s) !! Z.to_nat (currentHistoryIndex (hooks s) - 1)
      = Some (DataURL img) /\
    run s [undo; ImageLoad 0] =
      set_canvas img
        (rerender
           (setCurrentHistoryIndex (fun i => i - 1)
              (setRedoHistory (fun r => r ++ [current (hooks s)]) s))).
Proof.
  intros Hwf Hpos Hc Hl.
  destruct (step_undo_effect footprint s Hwf Hpos) as (img & Hh & He).
  exists img. split; [done|].
  unfold run. simpl. rewrite He.
  rewrite (step_ImageLoad footprint _ 0 img).
  - rewrite drawImage_SourceOver by (by destruct s as [[] ? ? ? ? ?]).
    destruct s as [[d er hs rd ix] cv cx kd dc ld]; simpl in *. by subst.
  - destruct s as [[d er hs rd ix] cv cx kd dc ld]; simpl in *. by subst.
Qed.

Lemma run_redo_load s :
  wf s -> redoHistory (hooks s) <> [] ->
  globalCompositeOperation (ctx s) = SourceOver -> loading s = [] ->
  exists img,
    history (hooks s) !! Z.to_nat (currentHistoryIndex (hooks s) + 1)
      = Some (DataURL img) /\
    run s [redo; ImageLoad 0] =
      set_canvas img
        (rerender
           (setRedoHistory (fun r => take (length r - 1) r)
              (setCurrentHistoryIndex (fun i => i + 1)
                 (setHistory (fun h => h ++ [DataURL img]) s)))).
Proof.
  intros Hwf Hne Hc Hl.
  destruct (step_redo_effect footprint s Hwf Hne) as (img & Hh & He).
  exists img. split; [done|].
  unfold run. simpl. rewrite He.
  rewrite (step_ImageLoad footprint _ 0 img).
  - rewrite drawImage_SourceOver by (by destruct s as [[] ? ? ? ? ?]).
    destruct s as [[d er hs rd ix] cv cx kd dc ld]; simpl in *. by subst.
  - destruct s as [[d er hs rd ix] cv cx kd dc ld]; simpl in *. by subst.
Qed.

(** *** Undo and redo *)




(** C1: the scenario of the specification, for any three pen strokes A, B
    and C and any rasterizer, each decode completing before the next
    request.  After A and B, [history] is [[a; b]].  The first undo shows
    [a] with the cursor at 0.  The second undo does nothing: the cursor is
    at 0 and the bitmap still shows [a].  The redo shows [b] again with the
    cursor at 1.  After stroke C, drawn over [b], [history] is [[a; b; c]]
    with the cursor at 2, and the final redo does nothing. *)
Theorem scenario_undo_undo_redo (pA pB pC : Z * Z) (msA msB msC : list (Z * Z)) :
  let a := inked footprint pA msA ∅ in
  let b := inked footprint pB msB a in
  let c := inked footprint pC msC b in
  let s2 := run mount (strokeEvents 0 pA msA ++ strokeEvents 0 pB msB) in
  let s3 := run s2 [undo; ImageLoad 0] in
  let s4 := step s3 undo in
  let s5 := run s4 [redo; ImageLoad 0] in
  let s6 := run s5 (strokeEvents 0 pC msC) in
  let s7 := step s6 redo in
  canvas (run mount (strokeEvents 0 pA msA)) = a /\
  canvas s2 = b /\
  history (hooks s2) = [DataURL a; DataURL b] /\
  currentHistoryIndex (hooks s2) = 1 /\
  canvas s3 = a /\ currentHistoryIndex (hooks s3) = 0 /\
  s4 = s3 /\
  canvas s5 = b /\ currentHistoryIndex (hooks s5) = 1 /\
  history (hooks s6) = [DataURL a; DataURL b; DataURL c] /\
  currentHistoryIndex (hooks s6) = 2 /\
  canvas s6 = c /\
  s7 = s6.
Proof.
  intros a b c s2 s3 s4 s5 s6 s7.
  split.
  { by rewrite (run_pen_stroke mount) by (apply wf_mount || done). }
  assert (wf s2) as Hwf2.
  { apply wf_run; [apply wf_mount|].
    apply Forall_app. split; apply strokeEvents_no_leave. }
  (* after strokes A and B *)
  assert (exists cx,
            globalCompositeOperation cx = SourceOver /\
            s2 = {| hooks := {| isDrawing := false; isEraser := false;
                                history := [DataURL a; DataURL b];
                                redoHistory := []; currentHistoryIndex := 1 |};
                    canvas := b; ctx := cx;
                    keydown := {| isDrawing := false; isEraser := false;
                                  history := [DataURL a; DataURL b];
                                  redoHistory := []; currentHistoryIndex := 1 |};
                    depsChanged := false; loading := [] |}) as (cx2 & Hcx2 & E2).
  { eexists. split; [|unfold s2; rewrite run_app].
    2:{ rewrite (run_pen_stroke mount) by (apply wf_mount || done).
        rewrite run_pen_stroke; [reflexivity| |done].
        rewrite <- (run_pen_stroke mount) by (apply wf_mount || done).
        apply wf_run; [apply wf_mount|apply strokeEvents_no_leave]. }
    by rewrite gco_closePath, gco_drag. }
  clearbody a b s2. subst s2.
  (* the first undo *)
  assert (wf s3) as Hwf3 by (apply wf_run; [done|by repeat constructor]).
  destruct (run_undo_load _ Hwf2) as (img & Hl & E3); [done..|].
  simpl in Hl. injection Hl as <-.
  fold s3 in E3. unfold rerender, current, js_get in E3. simpl in E3.
  clearbody s3. subst s3.
  (* the second undo *)
  assert (s4 = _) as E4 by (by apply step_undo_noop).
  clearbody s4. subst s4.
  (* the redo *)
  assert (wf s5) as Hwf5 by (apply wf_run; [done|by repeat constructor]).
  destruct (run_redo_load _ Hwf3) as (img & Hl & E5); [done..|].
  simpl in Hl. injection Hl as <-.
  fold s5 in E5. unfold rerender in E5. simpl in E5.
  clearbody s5. subst s5.
  (* stroke C *)
  assert (wf s6) as Hwf6 by (apply wf_run; [done|apply strokeEvents_no_leave]).
  assert (s6 = _) as E6 by (by apply run_pen_stroke).
  simpl in E6. fold c in E6.
  clearbody c s6. subst s6.
  (* the final redo *)
  assert (s7 = _) as E7 by (by apply step_redo_noop).
  done.
Qed.


End Operations.

(** ** The eraser and the restored image *)

Lemma not_shows_blank (s : State) (img : Raster) :
  current (hooks s) = DataURL img -> canvas s = ∅ -> img <> ∅ ->
  ~ shows s (current (hooks s)).
Proof.
  intros Hcur Hcv Hne Hshow. unfold shows in Hshow.
  rewrite Hcur, Hcv in Hshow. by apply DataURL_inj in Hshow.
Qed.

Lemma inkA_nonempty : inkA <> ∅.
Proof. apply (bool_decide_eq_false_1 (inkA = ∅)). vm_compute. reflexivity. Qed.

(** C5: pen stroke A, eraser stroke B (secondary button), Ctrl+Z, and the
    decode completes.  The undo does push the entry under the cursor and
    move the cursor back to the snapshot after A, but the context still
    composites "destination-out", so [drawImage] on the cleared bitmap
    leaves it blank instead of showing that snapshot. *)
Theorem undo_after_eraser_stroke :
  let s := run round_stroke mount (strokeA ++ eraseB) in
  let s' := run round_stroke s [undo; ImageLoad 0] in
  0 < currentHistoryIndex (hooks s) /\
  redoHistory (hooks s') = redoHistory (hooks s) ++ [current (hooks s)] /\
  currentHistoryIndex (hooks s') = currentHistoryIndex (hooks s) - 1 /\
  loading s' = [] /\
  globalCompositeOperation (ctx s') = DestinationOut /\
  current (hooks s') = DataURL inkA /\
  canvas s' = ∅ /\
  ~ shows s' (current (hooks s')).
Proof.
  intros s s'.
  assert (current (hooks s') = DataURL inkA) as Hcur
    by (vm_compute; reflexivity).
  assert (canvas s' = ∅) as Hcv by (vm_compute; reflexivity).
  assert (currentHistoryIndex (hooks s) = 1) as Hi by (vm_compute; reflexivity).
  split; [rewrite Hi; lia|].
  split; [vm_compute; reflexivity|].
  split; [vm_compute; reflexivity|].
  split; [vm_compute; reflexivity|].
  split; [vm_compute; reflexivity|].
  split; [exact Hcur|].
  split; [exact Hcv|].
  exact (not_shows_blank s' _ Hcur Hcv inkA_nonempty).
Qed.

(** C4: pen stroke A, an eraser stroke B far from it (so that the snapshot
    after B keeps all the ink of A), Ctrl+Z, Ctrl+Y, each decode completing
    at once.  The cursor stays inside [history], but after the redo has
    completed its decode the bitmap is blank although the entry under the
    cursor, the snapshot after B, is inked: the image was composited
    "destination-out". *)
Theorem redo_after_eraser_stroke :
  let s := run round_stroke mount
             (strokeA ++ eraseFar ++ [undo; ImageLoad 0; redo; ImageLoad 0]) in
  canvas (run round_stroke mount (strokeA ++ eraseFar)) = inkA /\
  -1 <= currentHistoryIndex (hooks s) <= Z.of_nat (length (history (hooks s))) - 1 /\
  currentHistoryIndex (hooks s) = 1 /\
  loading s = [] /\
  globalCompositeOperation (ctx s) = DestinationOut /\
  current (hooks s) = DataURL inkA /\
  canvas s = ∅ /\
  ~ shows s (current (hooks s)).
Proof.
  intros s.
  assert (current (hooks s) = DataURL inkA) as Hcur
    by (vm_compute; reflexivity).
  assert (canvas s = ∅) as Hcv by (vm_compute; reflexivity).
  assert (currentHistoryIndex (hooks s) = 1) as Hi by (vm_compute; reflexivity).
  assert (length (history (hooks s)) = 3%nat) as Hlen by (vm_compute; reflexivity).
  split; [vm_compute; reflexivity|].
  split; [rewrite Hi, Hlen; lia|].
  split; [exact Hi|].
  split; [vm_compute; reflexivity|].
  split; [vm_compute; reflexivity|].
  split; [exact Hcur|].
  split; [exact Hcv|].
  exact (not_shows_blank s _ Hcur Hcv inkA_nonempty).
Qed.

(** ** The key listener after a pointer-leave *)

(** C6: strokes A and B, Ctrl+Z, its decode, then a stroke C that ends by
    leaving the canvas, and Ctrl+Y before React renders.  The commit did
    empty [redoHistory], exactly as when the same stroke ends by a
    release, where the redo changes nothing.  But the listener still closes
    over the render from before the commit, whose [redoHistory] holds the
    snapshot after B: the redo appends that snapshot to [history], moves
    the cursor onto it and starts decoding it. *)
Theorem redo_after_stroke_ended_by_leave :
  let s0 := run round_stroke after_AB
              [undo; ImageLoad 0; MouseDown 0 5 5; MouseMove 6 6] in
  let s := step round_stroke s0 MouseLeave in
  let t := step round_stroke s0 MouseUp in
  hooks s = hooks t /\
  redoHistory (hooks s) = [] /\
  history (hooks s) = [DataURL inkA; DataURL inkAC] /\
  currentHistoryIndex (hooks s) = 1 /\
  step round_stroke t redo = t /\
  redoHistory (keydown s) = [DataURL inkAB] /\
  history (hooks (step round_stroke s redo))
    = [DataURL inkA; DataURL inkAC; DataURL inkAB] /\
  currentHistoryIndex (hooks (step round_stroke s redo)) = 2 /\
  loading (step round_stroke s redo) = [inkAB] /\
  step round_stroke s redo <> s.
Proof.
  intros s0 s t.
  assert (history (hooks (step round_stroke s redo))
          = [DataURL inkA; DataURL inkAC; DataURL inkAB]) as Hh'
    by (vm_compute; reflexivity).
  assert (history (hooks s) = [DataURL inkA; DataURL inkAC]) as Hh
    by (vm_compute; reflexivity).
  split; [vm_compute; reflexivity|].
  split; [vm_compute; reflexivity|].
  split; [exact Hh|].
  split; [vm_compute; reflexivity|].
  split; [vm_compute; reflexivity|].
  split; [vm_compute; reflexivity|].
  split; [exact Hh'|].
  split; [vm_compute; reflexivity|].
  split; [vm_compute; reflexivity|].
  intros Heq. rewrite Heq, Hh in Hh'. discriminate Hh'.
Qed.

(** C7: strokes A and B, Ctrl+Z, its decode, then the pointer crosses the
    canvas and leaves it, and Ctrl+Y before React renders.  The commit on
    pointer-leave emptied [redoHistory], so the redo should change
    nothing; the listener, bound before the commit, still sees the
    snapshot after B there and performs the redo.  The undo and the pointer
    move are no-ops at this state. *)
Theorem redo_with_empty_buffer_after_leave :
  let s := run round_stroke after_AB_undo [MouseMove 7 7; MouseLeave] in
  redoHistory (hooks s) = [] /\
  history (hooks s) = [DataURL inkA; DataURL inkA] /\
  isDrawing (hooks s) = false /\
  step round_stroke s (MouseMove 9 9) = s /\
  step round_stroke s undo = s /\
  redoHistory (keydown s) = [DataURL inkAB] /\
  history (hooks (step round_stroke s redo))
    = [DataURL inkA; DataURL inkA; DataURL inkAB] /\
  currentHistoryIndex (hooks (step round_stroke s redo)) = 2 /\
  loading (step round_stroke s redo) = [inkAB] /\
  step round_stroke s redo <> s.
Proof.
  intros s.
  assert (history (hooks (step round_stroke s redo))
          = [DataURL inkA; DataURL inkA; DataURL inkAB]) as Hh'
    by (vm_compute; reflexivity).
  assert (history (hooks s) = [DataURL inkA; DataURL inkA]) as Hh
    by (vm_compute; reflexivity).
  split; [vm_compute; reflexivity|].
  split; [exact Hh|].
  split; [vm_compute; reflexivity|].
  split; [vm_compute; reflexivity|].
  split; [vm_compute; reflexivity|].
  split; [vm_compute; reflexivity|].
  split; [exact Hh'|].
  split; [vm_compute; reflexivity|].
  split; [vm_compute; reflexivity|].
  intros Heq. rewrite Heq, Hh in Hh'. discriminate Hh'.
Qed.

(** ** The scenario, the race and the round trip on sample sessions *)

(** C1, as the specification states it, fails on strokes A, B, C: the
    second undo leaves the cursor at 0 and the bitmap inked, and the final
    [history] has three entries. *)
Lemma scenario_as_stated_fails :
  let s4 := run round_stroke mount (strokeA ++ strokeB ++ [undo; ImageLoad 0; undo]) in
  let s5 := run round_stroke s4 [redo; ImageLoad 0] in
  let s7 := run round_stroke s5 (strokeC ++ [redo]) in
  currentHistoryIndex (hooks s4) = 0 /\
  canvas s4 = inkA /\
  canvas s5 = inkAB /\
  length (history (hooks s7)) = 3%nat /\
  ~ (currentHistoryIndex (hooks s4) = -1 /\ canvas s4 = ∅ /\
     canvas s5 = inkA /\
     length (history (hooks s7)) = 2%nat).
Proof.
  intros s4 s5 s7.
  assert (currentHistoryIndex (hooks s4) = 0) as Hi by (vm_compute; reflexivity).
  split; [exact Hi|].
  split; [vm_compute; reflexivity|].
  split; [vm_compute; reflexivity|].
  split; [vm_compute; reflexivity|].
  intros (Hneg & _). rewrite Hi in Hneg. discriminate Hneg.
Qed.



(** ** Instances on sample sessions *)

Lemma rendered_after_AB : rendered round_stroke after_AB.
Proof.
  apply rendered_run; [constructor|].
  apply Forall_app. split; apply strokeEvents_no_leave.
Qed.

Lemma rendered_after_AB_undo : rendered round_stroke after_AB_undo.
Proof. apply rendered_run; [apply rendered_after_AB|by repeat constructor]. Qed.

Lemma rendered_after_ABC : rendered round_stroke after_ABC.
Proof. apply rendered_run; [apply rendered_after_AB|apply strokeEvents_no_leave]. Qed.

Lemma reachable_after_AB : reachable round_stroke after_AB.
Proof. apply rendered_reachable, rendered_after_AB. Qed.


Lemma reachable_after_ABC : reachable round_stroke after_ABC.
Proof. apply rendered_reachable, rendered_after_ABC. Qed.

(** The three cases of [startDrawing] on the mounted component: primary
    button with the eraser toggle on, primary button with it off, middle
    button. *)
Lemma startDrawing_selects_mode_witness :
  globalCompositeOperation (ctx (startDrawing mount_eraser 0 5 5 mount)) = DestinationOut /\
  lineWidth (ctx (startDrawing mount_hooks 0 5 5 mount)) = 2 /\
  startDrawing mount_hooks 1 5 5 mount = mount.
Proof.
  split; [|split].
  - apply (startDrawing_selects_mode mount_eraser 0 5 5 mount). right. by split.
  - apply (startDrawing_selects_mode mount_hooks 0 5 5 mount). by split.
  - apply (startDrawing_selects_mode mount_hooks 1 5 5 mount). by split.
Defined.


(** Crossing the canvas without pressing a button, after A, B and an undo:
    the redo state is lost and the snapshot after A is in [history]
    twice. *)
Lemma stopDrawing_without_stroke_witness :
  let s' := run round_stroke after_AB_undo (MouseMoves [(7, 7); (8, 8)] ++ [MouseLeave]) in
  canvas s' = canvas after_AB_undo /\
  currentHistoryIndex (hooks s') = 1 /\
  redoHistory after_AB_undo.(hooks) <> [] /\
  redoHistory (hooks s') = [] /\
  js_get (history (hooks s')) 1 = js_get (history (hooks s')) 0.
Proof.
  intros s'.
  destruct (stopDrawing_without_stroke round_stroke after_AB_undo
              [(7, 7); (8, 8)] MouseLeave)
    as (Hc & _ & Hi & Hr & Hdup).
  - apply (rendered_wf round_stroke), rendered_after_AB_undo.
  - vm_compute. reflexivity.
  - by right.
  - fold s' in Hc, Hi, Hr, Hdup.
    split; [exact Hc|].
    split; [rewrite Hi; vm_compute; reflexivity|].
    split; [vm_compute; discriminate|].
    split; [exact Hr|].
    apply Hdup. vm_compute. reflexivity.
Defined.



(** ** More properties of the component *)

Section Listener.

Variable footprint : Z -> Path -> Raster.

Abbreviation step := (step footprint).
Abbreviation run := (run footprint).
Abbreviation reachable := (reachable footprint).
Abbreviation rendered := (rendered footprint).

(** The undo and redo closures read only [history], [redoHistory] and
    [currentHistoryIndex] of their render. *)
Lemma handleKeyDown_fresh c c' ck mk key s :
  fresh c c' -> handleKeyDown c ck mk key s = handleKeyDown c' ck mk key s.
Proof.
  intros (Hh & Hr & Hi).
  destruct c as [d e h r i], c' as [d' e' h' r' i']; simpl in *. by subst.
Qed.

(** The effect lists only [history] and [redoHistory] as dependencies.
    While the renders keep up, the listener is never stale where it
    matters: the render it closes over agrees with the live state on
    [history], [redoHistory] and [currentHistoryIndex], so a key press acts
    as if the listener had been bound at the latest render.  A
    pointer-leave breaks this until React renders: the listener stays the
    one bound before the commit, one entry behind the live cursor, and the
    next render binds it anew. *)
Theorem key_listener_follows_renders s ck mk key :
  rendered s ->
  history (keydown s) = history (hooks s) /\
  redoHistory (keydown s) = redoHistory (hooks s) /\
  currentHistoryIndex (keydown s) = currentHistoryIndex (hooks s) /\
  step s (KeyDown ck mk key) = sync s (handleKeyDown (hooks s) ck mk key s) /\
  (let s1 := step s MouseLeave in
   keydown s1 = keydown s /\
   currentHistoryIndex (keydown s1) = currentHistoryIndex (hooks s1) - 1 /\
   keydown (step s1 Render) = hooks s1).
Proof.
  intros Hs. pose proof (rendered_wf _ _ Hs) as [Hok Hf Hd].
  pose proof (hist_ok_bounds _ Hok) as Hb.
  destruct Hf as (Hh & Hr & Hi).
  split; [done|]. split; [done|]. split; [done|]. split.
  { unfold step. f_equal. by apply handleKeyDown_fresh. }
  cbv zeta. rewrite step_MouseLeave by done.
  destruct s as [[] ? ? ? ? ?]; simpl in *. split; [done|]. split; [lia|done].
Qed.



End Listener.

Section Persistence.

Variable footprint : Z -> Path -> Raster.

Abbreviation step := (step footprint).
Abbreviation run := (run footprint).
Abbreviation reachable := (reachable footprint).

(** No handler calls [setIsEraser]. *)
Lemma isEraser_step s e : isEraser (hooks (step s e)) = isEraser (hooks s).
Proof.
  destruct e as [b x y|x y| | | |ck mk key|n|]; unfold step;
    rewrite ?hooks_sync, ?hooks_rerender; try done.
  - unfold startDrawing. destruct s as [[] ? ? ? ? ?]. by repeat case_match.
  - unfold draw. destruct s as [[] ? ? ? ? ?]. by repeat case_match.
  - unfold stopDrawing, saveStateToHistory. destruct s as [[] ? ? ? ? ?].
    by repeat case_match.
  - unfold stopDrawing, saveStateToHistory. destruct s as [[] ? ? ? ? ?].
    by repeat case_match.
  - destruct (handleKeyDown_cases (keydown s) ck mk key s)
      as [-> | [[Hp ->] | [Hn ->]]]; [done| |].
    + by rewrite hooks_undoLastStroke.
    + by rewrite hooks_redoLastStroke.
  - unfold onload. destruct s as [[] ? ? ? ? ?]. by repeat case_match.
Qed.

Lemma reachable_isEraser s : reachable s -> isEraser (hooks s) = false.
Proof. induction 1 as [|s e Hs IH]; [done|]. by rewrite isEraser_step. Qed.

(** The eraser toggle is never switched on: [isEraser] is false in every
    reachable state, so the cursor is always the crosshair and a stroke
    erases only when it is begun with the secondary button. *)
Theorem eraser_toggle_is_never_on s x y :
  reachable s ->
  isEraser (hooks s) = false /\
  cursor (hooks s) = "crosshair" /\
  globalCompositeOperation (ctx (step s (MouseDown 0 x y))) = SourceOver /\
  globalCompositeOperation (ctx (step s (MouseDown 2 x y))) = DestinationOut.
Proof.
  intros Hs.
  pose proof (reachable_isEraser s Hs) as He.
  split; [done|]. split; [unfold cursor; by rewrite He|].
  unfold step. rewrite !ctx_sync. unfold startDrawing. rewrite He. done.
Qed.

(** Events other than key presses and releases leave the history state
    alone. *)
Lemma history_step_other s e :
  ~ key_event e -> e <> MouseUp -> e <> MouseLeave ->
  history (hooks (step s e)) = history (hooks s) /\
  redoHistory (hooks (step s e)) = redoHistory (hooks s) /\
  currentHistoryIndex (hooks (step s e)) = currentHistoryIndex (hooks s).
Proof.
  intros Hk Hu Hl.
  destruct e as [b x y|x y| | | |ck mk key|n|]; unfold step;
    rewrite ?hooks_sync, ?hooks_rerender; try done.
  - unfold startDrawing. destruct s as [[] ? ? ? ? ?]. by repeat case_match.
  - unfold draw. destruct s as [[] ? ? ? ? ?]. by repeat case_match.
  - unfold onload. destruct s as [[] ? ? ? ? ?]. by repeat case_match.
Qed.

(** One event keeps the cursor at or above 0 once it is there, and does not
    touch the first entry of [history], whatever render the key listener
    closes over. *)
Lemma first_snapshot_step s e :
  inv s -> 0 <= currentHistoryIndex (hooks s) ->
  0 <= currentHistoryIndex (hooks (step s e)) /\
  history (hooks (step s e)) !! 0%nat = history (hooks s) !! 0%nat.
Proof.
  intros [[Hlo Hup _ _] _ Hc _] Hi.
  assert (forall e', e' = MouseUp \/ e' = MouseLeave ->
            0 <= currentHistoryIndex (hooks (step s e')) /\
            history (hooks (step s e')) !! 0%nat = history (hooks s) !! 0%nat)
    as Hstop.
  { intros e' He'.
    destruct (step_stop footprint s e' He') as (-> & _); [lia|].
    destruct s as [[d er hs rd ix] cv cx kd dc ld]; simpl in *. split; [lia|].
    rewrite lookup_app_l by (rewrite length_take; lia).
    apply lookup_take_lt. lia. }
  assert (forall e', ~ key_event e' -> e' <> MouseUp -> e' <> MouseLeave ->
            0 <= currentHistoryIndex (hooks (step s e')) /\
            history (hooks (step s e')) !! 0%nat = history (hooks s) !! 0%nat)
    as Hother.
  { intros e' H1 H2 H3.
    destruct (history_step_other s e' H1 H2 H3) as (-> & _ & ->). done. }
  destruct e as [b x y|x y| | | |ck mk key|n|];
    [apply Hother; [by intros []|done..]|apply Hother; [by intros []|done..]
    |apply Hstop; by left|apply Hstop; by right
    |apply Hother; [by intros []|done..]|
    |apply Hother; [by intros []|done..]|apply Hother; [by intros []|done..]].
  unfold step. rewrite hooks_sync.
  destruct (handleKeyDown_cases (keydown s) ck mk key s)
    as [-> | [[Hp ->] | [Hn ->]]]; [done| |].
  - rewrite hooks_undoLastStroke by done. simpl. split; [lia|done].
  - rewrite hooks_redoLastStroke by done. simpl. split; [lia|].
    apply lookup_app_l. lia.
Qed.

(** The first committed snapshot is permanent.  Once the cursor is at or
    above 0 (that is, once anything was committed), no sequence of events
    brings it below 0 again, and the first entry of [history] stays the
    snapshot it is: the state before the first commit cannot be restored. *)
Theorem first_snapshot_is_permanent s es :
  reachable s ->
  0 <= currentHistoryIndex (hooks s) ->
  0 <= currentHistoryIndex (hooks (run s es)) /\
  history (hooks (run s es)) !! 0%nat = history (hooks s) !! 0%nat /\
  exists img, history (hooks s) !! 0%nat = Some (DataURL img).
Proof.
  intros Hs Hi. pose proof (reachable_inv _ _ Hs) as Hinv.
  assert (0 <= currentHistoryIndex (hooks (run s es)) /\
          history (hooks (run s es)) !! 0%nat = history (hooks s) !! 0%nat)
    as [H1 H2].
  { clear Hs. revert s Hinv Hi.
    induction es as [|e es IH]; intros s Hinv Hi; [done|].
    destruct (first_snapshot_step s e Hinv Hi) as [Hi' Hh'].
    destruct (IH (step s e)) as [H1 H2]; [by apply inv_step|done|].
    split; [exact H1|]. by rewrite <- Hh'. }
  split; [done|]. split; [done|].
  destruct Hinv as [[Hlo Hup Hdef _] _ _ _].
  destruct (js_get_defined (history (hooks s)) 0) as (img & Hl & _);
    [done|lia|].
  by exists img.
Qed.

End Persistence.

Section Repetition.

Variable footprint : Z -> Path -> Raster.

Abbreviation step := (step footprint).
Abbreviation run := (run footprint).
Abbreviation reachable := (reachable footprint).
Abbreviation rendered := (rendered footprint).


(** A key press without Ctrl or Cmd, or with a key other than "z" and "y"
    (such as the "Z" of Ctrl+Shift+Z), changes nothing; Cmd stands for
    Ctrl. *)
Theorem other_keys_do_nothing s ck mk key :
  reachable s ->
  (ck || mk = false \/ (key <> "z" /\ key <> "y") ->
   step s (KeyDown ck mk key) = s) /\
  step s (KeyDown false true "z") = step s undo /\
  step s (KeyDown false true "y") = step s redo.
Proof.
  intros Hs.
  split; [|by apply step_modifier].
  intros Hcase. unfold step, handleKeyDown.
  assert ((ck || mk) && String.eqb key "z" = false /\
          (ck || mk) && String.eqb key "y" = false) as [-> ->].
  { destruct Hcase as [-> | [Hz Hy]]; [done|].
    apply String.eqb_neq in Hz, Hy. rewrite Hz, Hy.
    by destruct (ck || mk). }
  apply sync_same.
Qed.

Lemma hooks_step_undo s :
  wf s -> 0 < currentHistoryIndex (hooks s) ->
  history (hooks (step s undo)) = history (hooks s) /\
  redoHistory (hooks (step s undo)) = redoHistory (hooks s) ++ [current (hooks s)] /\
  currentHistoryIndex (hooks (step s undo)) = currentHistoryIndex (hooks s) - 1.
Proof.
  intros Hwf Hpos.
  destruct (step_undo_effect footprint s Hwf Hpos) as (img & _ & ->).
  rewrite hooks_rerender. by destruct s as [[] ? ? ? ? ?].
Qed.


Lemma wf_step_key s e : wf s -> key_event e -> wf (step s e).
Proof. intros Hwf He. apply wf_step; [done|]. by intros ->. Qed.



Lemma run_undos s k :
  wf s ->
  let s' := run s (replicate k undo) in
  let i := currentHistoryIndex (hooks s) in
  history (hooks s') = history (hooks s) /\
  currentHistoryIndex (hooks s') = Z.max (Z.min i 0) (i - Z.of_nat k) /\
  exists l, redoHistory (hooks s') = redoHistory (hooks s) ++ l /\
            Z.of_nat (length l) = i - currentHistoryIndex (hooks s').
Proof.
  intros Hwf. simpl.
  revert s Hwf. induction k as [|k IH]; intros s Hwf.
  - simpl. split; [done|]. split; [lia|].
    exists []. split; [by rewrite app_nil_r|simpl; lia].
  - simpl.
    change (foldl step (step s undo) (replicate k undo))
      with (run (step s undo) (replicate k undo)).
    destruct (Z.lt_ge_cases 0 (currentHistoryIndex (hooks s))) as [Hpos|Hle].
    + destruct (hooks_step_undo s Hwf Hpos) as (Hh & Hr & Hi).
      destruct (IH (step s undo)) as (Hh' & Hi' & l & Hr' & Hl);
        [by apply wf_step_key|].
      rewrite Hh', Hh. split; [done|].
      rewrite Hi' in *. rewrite Hi in *. split; [lia|].
      exists (current (hooks s) :: l). split.
      * by rewrite Hr', Hr, <- app_assoc.
      * simpl length. lia.
    + rewrite step_undo_noop by done.
      destruct (IH s Hwf) as (Hh' & Hi' & l & Hr' & Hl).
      split; [done|]. rewrite Hi' in *. split; [lia|].
      exists l. split; [done|lia].
Qed.


(** While the renders keep up, [k] undo requests in a row leave [history]
    untouched, move the cursor back [k] entries but stop at 0 (and leave it
    at -1 when nothing was ever committed), and only grow [redoHistory], by
    as many entries as the cursor moved. *)
Theorem repeated_undo s k :
  rendered s ->
  let s' := run s (replicate k undo) in
  let i := currentHistoryIndex (hooks s) in
  history (hooks s') = history (hooks s) /\
  currentHistoryIndex (hooks s') = Z.max (Z.min i 0) (i - Z.of_nat k) /\
  exists l, redoHistory (hooks s') = redoHistory (hooks s) ++ l /\
            Z.of_nat (length l) = i - currentHistoryIndex (hooks s').
Proof. intros Hs. by apply run_undos, rendered_wf with footprint. Qed.



End Repetition.

Section Modes.

Variable footprint : Z -> Path -> Raster.

Abbreviation step := (step footprint).
Abbreviation run := (run footprint).
Abbreviation reachable := (reachable footprint).

(** Only a button press changes the compositing operator. *)
Lemma gco_step_no_press s e :
  ~ is_press e ->
  globalCompositeOperation (ctx (step s e)) = globalCompositeOperation (ctx s).
Proof.
  intros Hp.
  destruct e as [b x y|x y| | | |ck mk key|n|]; unfold step;
    rewrite ?ctx_sync, ?ctx_rerender; try done;
    destruct s as [[d er hs rd ix] cv cx kd dc ld]; simpl.
  - unfold draw. case_match; [done|]. simpl. apply gco_lineTo.
  - unfold stopDrawing, saveStateToHistory. case_match; simpl; apply gco_closePath.
  - unfold stopDrawing, saveStateToHistory. case_match; simpl; apply gco_closePath.
  - unfold handleKeyDown, undoLastStroke, redoLastStroke, set_src.
    repeat case_match; done.
  - unfold onload. by repeat case_match.
Qed.

Lemma gco_run_no_press s es :
  Forall (fun e => ~ is_press e) es ->
  globalCompositeOperation (ctx (run s es)) = globalCompositeOperation (ctx s).
Proof.
  revert s. induction es as [|e es IH]; intros s Hes; [done|].
  apply Forall_cons in Hes as [He Hes]. simpl.
  change (foldl step (step s e) es) with (run (step s e) es).
  by rewrite IH, gco_step_no_press.
Qed.

Lemma canvas_ImageLoad s n img :
  loading s !! n = Some img ->
  canvas (step s (ImageLoad n)) = drawImage (ctx s) img ∅.
Proof. intros Hl. unfold step, onload. by rewrite Hl. Qed.

(** What a completed decode leaves on the bitmap is decided by the last
    button press, however long ago: after a press of the secondary button
    and any events that are not presses (moves, releases, key presses,
    other completions), every decode that completes leaves the bitmap
    blank; after a press of the primary button with the toggle off it
    leaves exactly its image. *)
Theorem restore_follows_last_press s x y es n img :
  Forall (fun e => ~ is_press e) es ->
  (let s1 := run (step s (MouseDown 2 x y)) es in
   loading s1 !! n = Some img -> canvas (step s1 (ImageLoad n)) = ∅) /\
  (let s1 := run (step s (MouseDown 0 x y)) es in
   isEraser (hooks s) = false ->
   loading s1 !! n = Some img -> canvas (step s1 (ImageLoad n)) = img).
Proof.
  intros Hes. split; simpl.
  - intros Hl. rewrite (canvas_ImageLoad _ n img) by done.
    apply drawImage_DestinationOut. rewrite gco_run_no_press by done.
    unfold step. rewrite ctx_sync. done.
  - intros He Hl. rewrite (canvas_ImageLoad _ n img) by done.
    apply drawImage_SourceOver. rewrite gco_run_no_press by done.
    unfold step. rewrite ctx_sync. unfold startDrawing. by rewrite He.
Qed.


Lemma canvas_MouseDown s b x y : canvas (step s (MouseDown b x y)) = canvas s.
Proof.
  unfold step. rewrite canvas_sync. unfold startDrawing.
  destruct s as [[d er hs rd ix] cv cx kd dc ld]. by repeat case_match.
Qed.


(** Dragging under "source-over" only adds ink, under "destination-out"
    only removes ink. *)
Lemma drag_monotone (ms : list (Z * Z)) (c : Context2D) (px : Raster) :
  (globalCompositeOperation c = SourceOver -> px ⊆ (drag footprint ms c px).2) /\
  (globalCompositeOperation c = DestinationOut -> (drag footprint ms c px).2 ⊆ px).
Proof.
  revert c px. induction ms as [|m ms IH]; intros c px; [done|].
  unfold drag in *. simpl.
  destruct (IH (lineTo m.1 m.2 c) (stroke footprint (lineTo m.1 m.2 c) px))
    as [IH1 IH2].
  rewrite gco_lineTo in IH1, IH2.
  split; intros Hc.
  - etrans; [|by apply IH1].
    unfold stroke, composite. rewrite gco_lineTo, Hc. apply union_subseteq_l.
  - etrans; [by apply IH2|].
    unfold stroke, composite. rewrite gco_lineTo, Hc.
    by apply subseteq_difference_l.
Qed.

(** A whole stroke begun with the primary or the secondary button, in any
    state whose cursor is inside [history]: the bitmap and the context are
    those of the drag, and the bitmap is committed after the cursor. *)
Lemma run_stroke_parts s b p ms :
  -1 <= currentHistoryIndex (hooks s) <= Z.of_nat (length (history (hooks s))) - 1 ->
  b = 0 \/ b = 2 ->
  let d := drag footprint ms (ctx (startDrawing (hooks s) b p.1 p.2 s)) (canvas s) in
  let s' := run s (strokeEvents b p ms) in
  canvas s' = d.2 /\
  ctx s' = closePath d.1 /\
  loading s' = loading s /\
  history (hooks s')
    = take (Z.to_nat (currentHistoryIndex (hooks s) + 1)) (history (hooks s))
      ++ [toDataURL d.2] /\
  currentHistoryIndex (hooks s') = currentHistoryIndex (hooks s) + 1.
Proof.
  intros Hi Hb. cbv zeta. unfold strokeEvents.
  change (run s (MouseDown b p.1 p.2 :: MouseMoves ms ++ [MouseUp]))
    with (run (step s (MouseDown b p.1 p.2)) (MouseMoves ms ++ [MouseUp])).
  rewrite run_snoc.
  set (s0 := startDrawing (hooks s) b p.1 p.2 s).
  set (s1 := step s (MouseDown b p.1 p.2)).
  assert (hooks s1 = hooks s0) as Hh1 by apply hooks_sync.
  assert (canvas s1 = canvas s) as Hc1 by apply canvas_MouseDown.
  assert (ctx s1 = ctx s0) as Hx1 by apply ctx_sync.
  assert (loading s1 = loading s) as Hl1.
  { unfold s1, step. rewrite loading_sync. apply startDrawing_keeps. }
  assert (isDrawing (hooks s0) = true /\ history (hooks s0) = history (hooks s) /\
          currentHistoryIndex (hooks s0) = currentHistoryIndex (hooks s))
    as (Hd0 & Hh0 & Hi0).
  { unfold s0, startDrawing. destruct s as [[d er hs rd ix] cv cx kd dc ld].
    destruct Hb as [-> | ->]; simpl; by repeat case_match. }
  rewrite run_MouseMoves_drawing by (by rewrite Hh1).
  rewrite Hx1, Hc1. rewrite <- Hh1 in Hh0, Hi0.
  set (d := drag footprint ms (ctx s0) (canvas s)).
  clearbody d s1. clear Hh1 Hd0 Hx1 Hc1.
  destruct (step_stop footprint (set_canvas d.2 (set_ctx d.1 s1)) MouseUp)
    as (-> & -> & -> & ->); [by left| |].
  { destruct s1 as [[] ? ? ? ? ?]; simpl in *. subst. lia. }
  destruct s1 as [[] ? ? ? ? ?]; simpl in *. by subst.
Qed.

(** A stroke begun with the primary button never removes ink from the
    bitmap, and a stroke begun with the secondary button never adds any. *)
Theorem strokes_are_monotone s p ms :
  reachable s ->
  canvas s ⊆ canvas (run s (strokeEvents 0 p ms)) /\
  canvas (run s (strokeEvents 2 p ms)) ⊆ canvas s.
Proof.
  intros Hs. pose proof (reachable_inv _ _ Hs) as [[Hlo Hup _ _] _ _ _].
  pose proof (reachable_isEraser footprint s Hs) as He.
  destruct (run_stroke_parts s 0 p ms) as (-> & _); [lia|by left|].
  destruct (run_stroke_parts s 2 p ms) as (-> & _); [lia|by right|].
  split.
  - apply drag_monotone. unfold startDrawing. by rewrite He.
  - apply drag_monotone. done.
Qed.


End Modes.

(** ** Instances of the further properties on sample sessions *)

(** After stroke A and a press, the listener's render is stale in
    [isDrawing] only; once the pointer leaves the canvas it is one entry
    behind. *)
Lemma key_listener_follows_renders_witness :
  let s := run round_stroke mount (strokeA ++ [MouseDown 0 7 7]) in
  let s1 := step round_stroke s MouseLeave in
  isDrawing (keydown s) = false /\ isDrawing (hooks s) = true /\
  history (keydown s) = history (hooks s) /\
  step round_stroke s undo = sync s (handleKeyDown (hooks s) true false "z" s) /\
  currentHistoryIndex (keydown s1) = currentHistoryIndex (hooks s1) - 1.
Proof.
  intros s s1.
  destruct (key_listener_follows_renders round_stroke s true false "z")
    as (Hh & _ & _ & Hk & _ & Hi & _).
  - apply rendered_run; [constructor|].
    apply Forall_app. split; [apply strokeEvents_no_leave|by repeat constructor].
  - split; [vm_compute; reflexivity|]. split; [vm_compute; reflexivity|].
    split; [exact Hh|]. split; [exact Hk | exact Hi].
Defined.



Lemma eraser_toggle_is_never_on_witness :
  isEraser (hooks after_AB) = false /\ cursor (hooks after_AB) = "crosshair".
Proof.
  destruct (eraser_toggle_is_never_on round_stroke after_AB 0 0) as (He & Hc & _).
  - apply reachable_after_AB.
  - split; [exact He | exact Hc].
Defined.

(** After A and B, four undos then a stroke: the cursor is never below 0
    and the first entry is still the snapshot after A. *)
Lemma first_snapshot_is_permanent_witness :
  let s' := run round_stroke after_AB ([undo; undo; undo; undo] ++ strokeC) in
  0 <= currentHistoryIndex (hooks s') /\
  history (hooks s') !! 0%nat = Some (DataURL inkA).
Proof.
  intros s'.
  destruct (first_snapshot_is_permanent round_stroke after_AB
              ([undo; undo; undo; undo] ++ strokeC)) as (Hi & Hh & _).
  - apply reachable_after_AB.
  - vm_compute. discriminate.
  - split; [exact Hi|]. fold s' in Hh. rewrite Hh. vm_compute. reflexivity.
Defined.


(** Ctrl+Shift+Z after A and B does nothing. *)
Lemma other_keys_do_nothing_witness :
  step round_stroke after_AB (KeyDown true false "Z") = after_AB.
Proof.
  destruct (other_keys_do_nothing round_stroke after_AB true false "Z") as (Hn & _).
  - apply reachable_after_AB.
  - apply Hn. right. split; discriminate.
Defined.

(** Five undos after A, B, C stop at the first snapshot. *)
Lemma repeated_undo_witness :
  currentHistoryIndex (hooks (run round_stroke after_ABC (replicate 5 undo))) = 0.
Proof.
  destruct (repeated_undo round_stroke after_ABC 5) as (_ & Hi & _).
  - apply rendered_after_ABC.
  - rewrite Hi. vm_compute. reflexivity.
Defined.



(** After A and B: a right press, a move, the release and an undo, then
    the decode completes on a blank bitmap; with a left press instead it
    shows the snapshot after B. *)
Lemma restore_follows_last_press_witness :
  let es := [MouseMove 8 8; MouseUp; undo] in
  let s2 := run round_stroke (step round_stroke after_AB (MouseDown 2 7 7)) es in
  let s0 := run round_stroke (step round_stroke after_AB (MouseDown 0 7 7)) es in
  loading s2 = [inkAB] /\
  canvas (step round_stroke s2 (ImageLoad 0)) = ∅ /\
  canvas (step round_stroke s0 (ImageLoad 0)) = inkAB.
Proof.
  intros es s2 s0.
  destruct (restore_follows_last_press round_stroke after_AB 7 7 es 0 inkAB)
    as (He & Hp).
  - repeat constructor; by intros [].
  - split; [vm_compute; reflexivity|]. split.
    + apply He. vm_compute. reflexivity.
    + apply Hp; vm_compute; reflexivity.
Defined.


Lemma strokes_are_monotone_witness :
  canvas after_AB ⊆ canvas (run round_stroke after_AB (strokeEvents 0 (5, 5) [(6, 6)])) /\
  canvas (run round_stroke after_AB (strokeEvents 2 (5, 5) [(6, 6)])) ⊆ canvas after_AB.
Proof. apply (strokes_are_monotone round_stroke), reachable_after_AB. Defined.

